(** * Depth sorter of the gaussian-splatting viewer ([src/depth_sorter.ts])

    A shallow embedding of [nextPowerOfTwo], of the two compute shaders
    ([computeDepthShader], [copyToIndexBufferShader]), of the class
    [DepthSorter] (constructor and [sort]) and, from the specification, of the
    bitonic sort engine the class delegates to.

    Conventions.
    - JavaScript numbers that hold counts and WGSL [u32] values are [N]; the
      [u32] wrap-around is written out ([u32]).  Positions inside a buffer
      are [nat] (list positions).
    - [f32] values are an abstract scalar type [F] with the operations the
      shaders use ([Scalar]); rounding is not modelled.  [Z] is the instance
      used for concrete runs.
    - Device buffers live in a heap [gmap handle BufferData]; objects of the
      program hold handles, so that identity and aliasing are visible.
    - A dispatch is modelled by the list of stores its invocations issue, in
      invocation order; a store outside the bounds of the bound array is
      discarded (robust buffer access). *)

From Stdlib Require Import ZArith NArith Lia Bool Arith.
From stdpp Require Import base option list gmap.

Local Open Scope N_scope.

(** ** JavaScript [Math] on the values that occur *)

(** The value of [Math.log2(x)] for a count [x]: [-Infinity] at 0, the
    integer [k] when [x = 2^k], otherwise a real strictly between [k] and
    [k+1]. *)
Inductive log2_value : Type :=
| NegInfinity
| Exact (k : N)
| Between (k : N).

(** [Math.ceil] of such a value: [-Infinity] stays, the others are integers. *)
Inductive ceil_value : Type :=
| CeilNegInfinity
| CeilInt (k : N).

(** [Math.log2(x)] on a count.  The source computes in binary64; this is
    the exact logarithm, which the binary64 result agrees with on the
    counts the program can hold: a count is a [u32] in the shaders, so it
    is below [2^32], where the logarithm of a number that is not a power
    of two is more than [2^-32] away from the integers, far more than the
    spacing [2^-48] of the binary64 numbers there.  For much larger
    arguments (from [2^49 + 1] on) the binary64 logarithm of [2^k + 1]
    rounds to [k]; such arguments are outside this model, and the
    statements about [nextPowerOfTwo] below carry the bound [x < 2^32]. *)
Definition Math_log2 (x : N) : log2_value :=
  if x =? 0 then NegInfinity
  else if 2 ^ N.log2 x =? x then Exact (N.log2 x)
  else Between (N.log2 x).

Definition Math_ceil (v : log2_value) : ceil_value :=
  match v with
  | NegInfinity => CeilNegInfinity
  | Exact k => CeilInt k
  | Between k => CeilInt (k + 1)
  end.

(** [Math.pow(2, e)]: [2^-Infinity] is [0]. *)
Definition Math_pow2 (e : ceil_value) : N :=
  match e with
  | CeilNegInfinity => 0
  | CeilInt k => 2 ^ k
  end.

(** [function nextPowerOfTwo(x) { return Math.pow(2, Math.ceil(Math.log2(x))); }] *)
Definition nextPowerOfTwo (x : N) : N :=
  Math_pow2 (Math_ceil (Math_log2 x)).

(** [Math.ceil(n / t)] for counts [n] and a non-zero [t]. *)
Definition ceil_div (n t : N) : N :=
  if n mod t =? 0 then n / t else n / t + 1.

(** ** WGSL values *)

Definition u32 (x : N) : N := x mod 2 ^ 32.

(** The scalar type behind [f32], with the operations the shaders apply. *)
Class Scalar (F : Type) : Type := {
  f_lit : Z -> F;            (* a numeric literal *)
  f_add : F -> F -> F;
  f_mul : F -> F -> F;
  f_gt : F -> F -> bool      (* [a > b] *)
}.

#[export] Instance Z_Scalar : Scalar Z := {
  f_lit z := z;
  f_add := Z.add;
  f_mul := Z.mul;
  f_gt a b := Z.ltb b a
}.

Record vec3 (F : Type) : Type := Vec3 { v3x : F; v3y : F; v3z : F }.
Record vec4 (F : Type) : Type := Vec4 { v4x : F; v4y : F; v4z : F; v4w : F }.
(** [mat4x4<f32>]: four column vectors. *)
Record mat4x4 (F : Type) : Type :=
  Mat4x4 { col0 : vec4 F; col1 : vec4 F; col2 : vec4 F; col3 : vec4 F }.

Arguments Vec3 {F} _ _ _.
Arguments v3x {F} _.
Arguments v3y {F} _.
Arguments v3z {F} _.
Arguments Vec4 {F} _ _ _ _.
Arguments v4x {F} _.
Arguments v4y {F} _.
Arguments v4z {F} _.
Arguments v4w {F} _.
Arguments Mat4x4 {F} _ _ _ _.
Arguments col0 {F} _.
Arguments col1 {F} _.
Arguments col2 {F} _.
Arguments col3 {F} _.

Section Wgsl.
Context {F : Type} `{Scalar F}.

(** [vec4<f32>(pos, 1.0)] *)
Definition vec4_of (pos : vec3 F) (w : F) : vec4 F :=
  Vec4 (v3x pos) (v3y pos) (v3z pos) w.

(** One component of [m * v]: the sum over the columns. *)
Definition mat_row (sel : vec4 F -> F) (m : mat4x4 F) (v : vec4 F) : F :=
  f_add (f_add (f_add (f_mul (sel (col0 m)) (v4x v))
                      (f_mul (sel (col1 m)) (v4y v)))
               (f_mul (sel (col2 m)) (v4z v)))
        (f_mul (sel (col3 m)) (v4w v)).

(** [projMatrix * v] *)
Definition mat_mul_vec (m : mat4x4 F) (v : vec4 F) : vec4 F :=
  Vec4 (mat_row v4x m v) (mat_row v4y m v) (mat_row v4z m v) (mat_row v4w m v).

Definition vec3_zero : vec3 F := Vec3 (f_lit 0) (f_lit 0) (f_lit 0).
End Wgsl.

(** The values [i] takes in [for (var i = start; i < stop; i++)]:
    [start, start+1, ..., stop-1], none when [stop <= start].  Both bounds
    are [u32] values, so [i + 1] never wraps inside the loop. *)
Definition for_range (start stop : N) : list N :=
  (fun d => start + N.of_nat d) <$> seq 0 (N.to_nat (stop - start)).

(** A store [buf[i] = v] issued by an invocation. *)
Definition store (V : Type) : Type := (N * V)%type.

(** The effect of a store on the bound array: out of bounds it is discarded. *)
Definition apply_store {V : Type} (buf : list V) (st : store V) : list V :=
  <[N.to_nat (fst st) := snd st]> buf.

Definition apply_stores {V : Type} (buf : list V) (sts : list (store V)) : list V :=
  foldl apply_store buf sts.

(** The value the last store to position [p] carries, if there is one. *)
Definition written {V : Type} (sts : list (store V)) (p : nat) : option V :=
  foldl (fun acc st => if decide (N.to_nat (fst st) = p) then Some (snd st) else acc)
        None sts.

(** The invocations of [dispatchWorkgroups(n)] with [@workgroup_size(1)]:
    [global_id.x] = 0, ..., n-1. *)
Definition invocations (n : N) : list N :=
  N.of_nat <$> seq 0 (N.to_nat n).

(** ** The shaders *)

Section Shaders.
Context {F : Type} `{Scalar F}.

(** Body of the loop of [computeDepthShader] at index [i]. *)
Definition computeDepth_body (numQuadsUnpadded : N)
    (vertices : list (vec3 F)) (projMatrix : mat4x4 F) (i : N) : store F :=
  if numQuadsUnpadded <=? i then
    (i, f_lit 1000000)
  else
    let pos := default vec3_zero (vertices !! N.to_nat i) in
    let projPos := mat_mul_vec projMatrix (vec4_of pos (f_lit 1)) in
    (i, v4z projPos).

(** [main] of [computeDepthShader(itemsPerThread, numQuadsUnpadded)] for
    the invocation [global_id.x = gid]: the stores to [depths]. *)
Definition computeDepth_main (itemsPerThread numQuadsUnpadded : N)
    (vertices : list (vec3 F)) (projMatrix : mat4x4 F) (gid : N) : list (store F) :=
  computeDepth_body numQuadsUnpadded vertices projMatrix
    <$> for_range (u32 (gid * itemsPerThread)) (u32 ((gid + 1) * itemsPerThread)).

(** All the stores of a dispatch over [numThreads] invocations. *)
Definition computeDepth_stores (numThreads itemsPerThread numQuadsUnpadded : N)
    (vertices : list (vec3 F)) (projMatrix : mat4x4 F) : list (store F) :=
  invocations numThreads
    ≫= computeDepth_main itemsPerThread numQuadsUnpadded vertices projMatrix.
End Shaders.

(** The inner loop of [copyToIndexBufferShader]:
    [for (var vertex = 0u; vertex < 6; vertex++) indexBuffer[i * 6 + vertex] = index * 6 + vertex;] *)
Definition copy_vertices (i index : N) : list (store N) :=
  (fun vertex => (u32 (u32 (i * 6) + vertex), u32 (u32 (index * 6) + vertex)))
    <$> for_range 0 6.

(** The outer loop over the values of [i], with its [break]. *)
Fixpoint copy_loop (numQuadsUnpadded : N) (indices : list N) (idxs : list N)
    : list (store N) :=
  match idxs with
  | [] => []
  | i :: rest =>
      if numQuadsUnpadded <=? i then []
      else
        let index := default 0 (indices !! N.to_nat i) in
        copy_vertices i index ++ copy_loop numQuadsUnpadded indices rest
  end.

(** [main] of [copyToIndexBufferShader] for [global_id.x = gid]. *)
Definition copyToIndexBuffer_main (itemsPerThread numQuadsUnpadded : N)
    (indices : list N) (gid : N) : list (store N) :=
  copy_loop numQuadsUnpadded indices
    (for_range (u32 (gid * itemsPerThread)) (u32 ((gid + 1) * itemsPerThread))).

Definition copyToIndexBuffer_stores (numThreads itemsPerThread numQuadsUnpadded : N)
    (indices : list N) : list (store N) :=
  invocations numThreads ≫= copyToIndexBuffer_main itemsPerThread numQuadsUnpadded indices.

(** The value the stage stores at a position of the index buffer. *)
Definition expanded_at (permutation : list N) (p : nat) : N :=
  default 0 (permutation !! (p / 6)%nat) * 6 + N.of_nat (p mod 6).

(** ** The sort engine ([BitonicSorter], imported from [./bitonic]) *)

Local Open Scope nat_scope.

Section BitonicNetwork.
Context {A : Type} (gt : A -> A -> bool).

(** Modelled from the spec: the source of [./bitonic] is missing; this is
    one compare-exchange of the network of section 4.2.  Position [i]
    holds [x].  Its partner is at distance [j] (the stride), above when
    [i] is in the lower half of its sub-block of [2 * j] elements and below
    otherwise; the direction alternates by block of [k] elements,
    ascending on the even blocks.  The two elements are exchanged, as
    whole elements, when they are strictly out of order for the
    direction; the result is what position [i] holds afterwards. *)
Definition compare_exchange_at (k j : nat) (a : list A) (i : nat) (x : A) : A :=
  let lower := Nat.even (i / j) in
  let ascending := Nat.even (i / k) in
  let partner := if lower then i + j else i - j in
  match a !! partner with
  | None => x
  | Some y =>
      let first := if lower then x else y in
      let second := if lower then y else x in
      let exchange := if ascending then gt first second else gt second first in
      if exchange then y else x
  end.

(** Modelled from the spec: the source of [./bitonic] is missing; one pass
    is one dispatch, every compare-exchange reads the array as the
    previous pass left it. *)
Definition compare_exchange_pass (k j : nat) (a : list A) : list A :=
  imap (compare_exchange_at k j a) a.

(** Modelled from the spec: the source of [./bitonic] is missing; the [c]
    passes of strides [2^(c-1), ..., 2, 1] on blocks of [k] elements. *)
Fixpoint merge_passes (k c : nat) (a : list A) : list A :=
  match c with
  | O => a
  | S c' => merge_passes k c' (compare_exchange_pass k (2 ^ c') a)
  end.

(** Modelled from the spec: the source of [./bitonic] is missing; major
    stage [s] performs [s + 1] passes on blocks of [2^(s+1)] elements. *)
Definition bitonic_stage (s : nat) (a : list A) : list A :=
  merge_passes (2 ^ S s) (S s) a.

(** Modelled from the spec: the source of [./bitonic] is missing; the [n]
    major stages [0, ..., n-1] for an array of [2^n] elements. *)
Fixpoint bitonic_network (n : nat) (a : list A) : list A :=
  match n with
  | O => a
  | S n' => bitonic_stage n' (bitonic_network n' a)
  end.
End BitonicNetwork.

(** Comparison of (key, index) pairs: on the key alone. *)
Definition key_gt {F : Type} `{Scalar F} (p q : F * N) : bool :=
  f_gt (fst p) (fst q).

(** Modelled from the spec: the source of [./bitonic] is missing; the
    contents [argsort] leaves in the permutation buffer for the keys
    [values]: every key starts paired with its own position, the network
    moves the pairs, the indices are read off. *)
Definition argsort_indices {F : Type} `{Scalar F} (values : list F) : list N :=
  snd <$> bitonic_network key_gt (Nat.log2 (length values))
            (zip values (N.of_nat <$> seq 0 (length values))).

(** ** The device *)

Definition handle : Type := nat.

(** The contents of a device buffer, as the bindings that use it see it. *)
Inductive BufferData (F : Type) : Type :=
| F32Array (l : list F)
| U32Array (l : list N)
| Vec3Array (l : list (vec3 F))
| Mat4Uniform (m : mat4x4 F).

Arguments F32Array {F} _.
Arguments U32Array {F} _.
Arguments Vec3Array {F} _.
Arguments Mat4Uniform {F} _.

(** [buffers]: the buffers that exist; [nextHandle]: the next fresh handle;
    [lost]: the device has faulted; [faults]: what the environment will do
    to the coming submissions ([true]: the submission faults). *)
Record Device (F : Type) : Type := MkDevice {
  buffers : gmap handle (BufferData F);
  nextHandle : handle;
  lost : bool;
  faults : list bool
}.

Arguments MkDevice {F} _ _ _ _.
Arguments buffers {F} _.
Arguments nextHandle {F} _.
Arguments lost {F} _.
Arguments faults {F} _.

(** How a call ends: with a value, or with an exception. *)
Inductive completion (R : Type) : Type :=
| Returned (r : R)
| Thrown.

Arguments Returned {R} _.
Arguments Thrown {R}.

Section DeviceOps.
Context {F : Type} `{Scalar F}.

(** [device.createBuffer]: a new buffer under a fresh handle. *)
Definition createBuffer (dev : Device F) (data : BufferData F) : handle * Device F :=
  (nextHandle dev,
   MkDevice (<[nextHandle dev := data]> (buffers dev)) (S (nextHandle dev))
            (lost dev) (faults dev)).

(** [device.queue.writeBuffer]: replaces the contents; it has no return
    value and does nothing on a lost device. *)
Definition writeBuffer (dev : Device F) (h : handle) (data : BufferData F) : Device F :=
  if lost dev then dev
  else MkDevice (<[h := data]> (buffers dev)) (nextHandle dev) (lost dev) (faults dev).

(** [device.queue.submit]: runs the encoded pass on the buffers, unless
    the device is lost or the environment makes this submission fault, in
    which case the device becomes lost.  It has no return value. *)
Definition submit (dev : Device F)
    (pass : gmap handle (BufferData F) -> gmap handle (BufferData F)) : Device F :=
  if lost dev then dev
  else
    match faults dev with
    | true :: rest => MkDevice (buffers dev) (nextHandle dev) true rest
    | false :: rest => MkDevice (pass (buffers dev)) (nextHandle dev) false rest
    | [] => MkDevice (pass (buffers dev)) (nextHandle dev) false []
    end.
End DeviceOps.

(** ** [BitonicSorter] and [DepthSorter] *)

(** Modelled from the spec: the source of [./bitonic] is missing; the sort
    engine owns one permutation buffer of [nElements] entries, created at
    construction and never reallocated. *)
Record BitonicSorter : Type := MkBitonicSorter {
  sorter_nElements : N;
  indicesBuffer : handle
}.

(** The shader parameters a compute pipeline was compiled with. *)
Record Pipeline : Type := MkPipeline {
  itemsPerThread : N;
  numQuadsUnpadded : N
}.

(** [computeDepthBindGroup]: bindings 0, 1, 2. *)
Record ComputeDepthBindGroup : Type := MkComputeDepthBindGroup {
  bind_vertices : handle;
  bind_depths : handle;
  bind_projMatrix : handle
}.

(** [copyToIndexBufferBindGroup]: bindings 0, 1. *)
Record CopyBindGroup : Type := MkCopyBindGroup {
  bind_indices : handle;
  bind_indexBuffer : handle
}.

Record DepthSorter : Type := MkDepthSorter {
  nElements : N;
  nPadded : N;
  numThreads : N;
  positionsBuffer : handle;
  projMatrixBuffer : handle;
  depthBuffer : handle;
  indexBuffer : handle;
  indicesReadoutBuffer : handle;
  computeDepthPipeline : Pipeline;
  computeDepthBindGroup : ComputeDepthBindGroup;
  copyToIndexBufferPipeline : Pipeline;
  copyToIndexBufferBindGroup : CopyBindGroup;
  sorter : BitonicSorter
}.

(** What the constructor reads of [PackedGaussians]. *)
Record PackedGaussians (F : Type) : Type := MkPackedGaussians {
  numGaussians : N;
  positions : list (vec3 F)
}.

Arguments MkPackedGaussians {F} _ _.
Arguments numGaussians {F} _.
Arguments positions {F} _.

(** What a call of [sort] leaves: the object, the device, how it ended. *)
Record SortOutcome (F : Type) : Type := MkSortOutcome {
  out_this : DepthSorter;
  out_device : Device F;
  out_result : completion handle
}.

Arguments MkSortOutcome {F} _ _ _.
Arguments out_this {F} _.
Arguments out_device {F} _.
Arguments out_result {F} _.

Section DepthSorterOps.
Context {F : Type} `{Scalar F}.

Definition mat4_zero : mat4x4 F :=
  let z := Vec4 (f_lit 0) (f_lit 0) (f_lit 0) (f_lit 0) in Mat4x4 z z z z.

(** Modelled from the spec: the source of [./bitonic] is missing;
    [new BitonicSorter(context, nElements)] creates the permutation
    buffer. *)
Definition BitonicSorter_new (dev : Device F) (n : N) : BitonicSorter * Device F :=
  let '(h, dev) := createBuffer dev (U32Array (replicate (N.to_nat n) 0%N)) in
  (MkBitonicSorter n h, dev).

(** Modelled from the spec: the source of [./bitonic] is missing; the
    effect of the sort network on the buffers: it reads the keys and
    overwrites the permutation buffer.  The spec does not say whether the
    engine also rearranges the keys in the buffer it is given; here the
    key buffer is left as it is. *)
Definition argsort_pass (s : BitonicSorter) (values : handle)
    (bufs : gmap handle (BufferData F)) : gmap handle (BufferData F) :=
  match bufs !! values with
  | Some (F32Array keys) => <[indicesBuffer s := U32Array (argsort_indices keys)]> bufs
  | _ => bufs
  end.

(** Modelled from the spec: the source of [./bitonic] is missing;
    [argsort(values)] submits the network and returns the permutation
    buffer.  The spec requires a power-of-two length and a loud failure
    otherwise; that failure is not modelled: for every length this is the
    outcome of a call from which the engine returns. *)
Definition argsort (s : BitonicSorter) (values : handle) (dev : Device F)
    : handle * Device F :=
  (indicesBuffer s, submit dev (argsort_pass s values)).

(** The depth pass: pipeline, bind group and [dispatchWorkgroups(n)]. *)
Definition computeDepth_pass (p : Pipeline) (bg : ComputeDepthBindGroup) (n : N)
    (bufs : gmap handle (BufferData F)) : gmap handle (BufferData F) :=
  match bufs !! bind_vertices bg, bufs !! bind_depths bg, bufs !! bind_projMatrix bg with
  | Some (Vec3Array vertices), Some (F32Array depths), Some (Mat4Uniform projMatrix) =>
      <[bind_depths bg :=
          F32Array (apply_stores depths
                      (computeDepth_stores n (itemsPerThread p) (numQuadsUnpadded p)
                                           vertices projMatrix))]> bufs
  | _, _, _ => bufs
  end.

(** The copy pass. *)
Definition copyToIndexBuffer_pass (p : Pipeline) (bg : CopyBindGroup) (n : N)
    (bufs : gmap handle (BufferData F)) : gmap handle (BufferData F) :=
  match bufs !! bind_indices bg, bufs !! bind_indexBuffer bg with
  | Some (U32Array indices), Some (U32Array indexBuf) =>
      <[bind_indexBuffer bg :=
          U32Array (apply_stores indexBuf
                      (copyToIndexBuffer_stores n (itemsPerThread p) (numQuadsUnpadded p)
                                                indices))]> bufs
  | _, _ => bufs
  end.

(** [constructor(context, gaussians)].  New buffers are zero-filled, apart
    from the positions, which are copied in while the buffer is mapped. *)
Definition DepthSorter_new (dev : Device F) (gaussians : PackedGaussians F)
    : DepthSorter * Device F :=
  let nElements := numGaussians gaussians in
  let nPadded := nextPowerOfTwo nElements in
  let numThreads := 1024%N in
  let '(positionsBuffer, dev) := createBuffer dev (Vec3Array (positions gaussians)) in
  let '(depthBuffer, dev) :=
    createBuffer dev (F32Array (replicate (N.to_nat nPadded) (f_lit 0))) in
  let '(indicesReadoutBuffer, dev) :=
    createBuffer dev (F32Array (replicate (N.to_nat nPadded) (f_lit 0))) in
  let '(projMatrixBuffer, dev) := createBuffer dev (Mat4Uniform mat4_zero) in
  let itemsPerThread := ceil_div nElements numThreads in
  let computeDepthPipeline := MkPipeline itemsPerThread nElements in
  let computeDepthBindGroup :=
    MkComputeDepthBindGroup positionsBuffer depthBuffer projMatrixBuffer in
  let '(sorter, dev) := BitonicSorter_new dev nPadded in
  let '(indexBuffer, dev) :=
    createBuffer dev (U32Array (replicate (N.to_nat (nElements * 6)) 0%N)) in
  let copyToIndexBufferPipeline := MkPipeline itemsPerThread nElements in
  let copyToIndexBufferBindGroup := MkCopyBindGroup (indicesBuffer sorter) indexBuffer in
  (MkDepthSorter nElements nPadded numThreads positionsBuffer projMatrixBuffer
                 depthBuffer indexBuffer indicesReadoutBuffer
                 computeDepthPipeline computeDepthBindGroup
                 copyToIndexBufferPipeline copyToIndexBufferBindGroup sorter,
   dev).

(** [sort(projMatrix)] *)
Definition sort (this : DepthSorter) (projMatrix : mat4x4 F) (dev : Device F)
    : SortOutcome F :=
  let dev := writeBuffer dev (projMatrixBuffer this) (Mat4Uniform projMatrix) in
  let dev :=
    submit dev (computeDepth_pass (computeDepthPipeline this)
                                  (computeDepthBindGroup this) (numThreads this)) in
  let '(_, dev) := argsort (sorter this) (depthBuffer this) dev in
  let dev :=
    submit dev (copyToIndexBuffer_pass (copyToIndexBufferPipeline this)
                                       (copyToIndexBufferBindGroup this) (numThreads this)) in
  MkSortOutcome this dev (Returned (indexBuffer this)).

(** The contents of the buffers after a call, for inspection. *)
Definition f32_contents (dev : Device F) (h : handle) : option (list F) :=
  match buffers dev !! h with
  | Some (F32Array l) => Some l
  | _ => None
  end.

Definition u32_contents (dev : Device F) (h : handle) : option (list N) :=
  match buffers dev !! h with
  | Some (U32Array l) => Some l
  | _ => None
  end.
End DepthSorterOps.

Definition empty_device (F : Type) : Device F := MkDevice ∅ 0 false [].

(** ** Auxiliary notions for the proofs *)


Section SourceDef.
Context {A : Type} (gt : A -> A -> bool).
(** The position whose element a pass brings to position [i]. *)
Definition exchange_source (k j : nat) (a : list A) (i : nat) : nat :=
  let lower := Nat.even (i / j) in
  let ascending := Nat.even (i / k) in
  let partner := if lower then i + j else i - j in
  match a !! i, a !! partner with
  | Some x, Some y =>
      let first := if lower then x else y in
      let second := if lower then y else x in
      let exchange := if ascending then gt first second else gt second first in
      if exchange then partner else i
  | _, _ => i
  end.
End SourceDef.

(** The comparison of the network on 0-1 keys. *)
Definition bgt (x y : bool) : bool := x && negb y.

(** A 0-1 sequence [f 0, ..., f (u-1)] is bitonic: constant [x] outside an
    interval [lo, hi), the opposite inside. *)
Definition bitonic01 (f : nat -> bool) (u : nat) : Prop :=
  exists (x : bool) (lo hi : nat),
    lo <= hi <= u /\ forall r, r < u -> f r = xorb x ((lo <=? r) && (r <? hi)).

(** [x] before [y] agrees with the direction. *)
Definition ordered01 (ascending x y : bool) : Prop :=
  if ascending then x = true -> y = true else y = true -> x = true.

(** The state of a 0-1 array inside a major stage: every sub-block of [u]
    elements is bitonic, and inside a block of [q] sub-blocks the sub-blocks
    are in the order of the block's direction. *)
Definition stage_invariant (u q : nat) (a : list bool) : Prop :=
  (forall c, c * u + u <= length a -> bitonic01 (fun r => a !!! (c * u + r)) u) /\
  (forall c c' r r',
     c < c' -> c / q = c' / q -> r < u -> r' < u -> c' * u + u <= length a ->
     ordered01 (Nat.even (c / q)) (a !!! (c * u + r)) (a !!! (c' * u + r'))).

(** The comparison [>] of the scalars is that of a total order without
    incomparable values (no NaN): irreflexive, transitive, and a value
    above [z] is above any [y] that is not itself above [z]. *)
Class ScalarOrder (F : Type) `{Scalar F} : Prop := {
  f_gt_irrefl : forall x : F, f_gt x x = false;
  f_gt_trans : forall x y z : F, f_gt x y = true -> f_gt y z = true -> f_gt x z = true;
  f_gt_cotrans : forall x y z : F,
    f_gt x z = true -> f_gt y z = false -> f_gt x y = true
}.

#[export] Instance Z_ScalarOrder : ScalarOrder Z.
Proof.
  split; unfold f_gt, Z_Scalar; intros.
  - apply Z.ltb_irrefl.
  - rewrite Z.ltb_lt in *. lia.
  - rewrite Z.ltb_lt, Z.ltb_ge in *. lia.
Qed.

(** A sorter and a device that fit together, as the constructor leaves
    them: the counts, pipelines and bind groups are those of the
    constructor, and the handles name buffers of the right kind and size. *)
Record DepthSorter_wf {F : Type} (this : DepthSorter) (dev : Device F) : Prop := {
  wf_numThreads : numThreads this = 1024%N;
  wf_nPadded : nPadded this = nextPowerOfTwo (nElements this);
  wf_computeDepthPipeline :
    computeDepthPipeline this
    = MkPipeline (ceil_div (nElements this) (numThreads this)) (nElements this);
  wf_computeDepthBindGroup :
    computeDepthBindGroup this
    = MkComputeDepthBindGroup (positionsBuffer this) (depthBuffer this)
                              (projMatrixBuffer this);
  wf_copyToIndexBufferPipeline :
    copyToIndexBufferPipeline this
    = MkPipeline (ceil_div (nElements this) (numThreads this)) (nElements this);
  wf_copyToIndexBufferBindGroup :
    copyToIndexBufferBindGroup this
    = MkCopyBindGroup (indicesBuffer (sorter this)) (indexBuffer this);
  wf_sorter : sorter_nElements (sorter this) = nPadded this;
  wf_positions : exists vs,
    buffers dev !! positionsBuffer this = Some (Vec3Array vs) /\
    length vs = N.to_nat (nElements this);
  wf_projMatrix : exists m,
    buffers dev !! projMatrixBuffer this = Some (Mat4Uniform m);
  wf_depths : exists ds,
    buffers dev !! depthBuffer this = Some (F32Array ds) /\
    length ds = N.to_nat (nPadded this);
  wf_indices : exists l,
    buffers dev !! indicesBuffer (sorter this) = Some (U32Array l) /\
    length l = N.to_nat (nPadded this);
  wf_index : exists l,
    buffers dev !! indexBuffer this = Some (U32Array l) /\
    length l = N.to_nat (nElements this * 6);
  wf_distinct : indicesBuffer (sorter this) <> indexBuffer this
}.

(** The buffers [sort] may write. *)
Definition sort_targets (this : DepthSorter) : list handle :=
  [projMatrixBuffer this; depthBuffer this; indicesBuffer (sorter this); indexBuffer this].

(** [bufs'] has the buffers of [bufs], with the same contents except
    possibly under the handles [hs]. *)
Definition updates_only {F : Type} (hs : list handle)
    (bufs bufs' : gmap handle (BufferData F)) : Prop :=
  dom bufs' = dom bufs /\ forall h, h ∉ hs -> bufs' !! h = bufs !! h.

(** The depth array after the Projection Stage the constructor sets up for
    [n] primitives, from the positions [vs], the matrix [m] and the previous
    contents [ds]. *)
Definition projected_depths {F : Type} `{Scalar F} (n : N) (vs : list (vec3 F))
    (m : mat4x4 F) (ds : list F) : list F :=
  apply_stores ds (computeDepth_stores 1024 (ceil_div n 1024) n vs m).

(** The index buffer after the Index Expansion Stage the constructor sets
    up, from the permutation and the previous contents [il]. *)
Definition expanded_indices (n : N) (permutation il : list N) : list N :=
  apply_stores il (copyToIndexBuffer_stores 1024 (ceil_div n 1024) n permutation).

(** The buffers as the four steps of [sort] leave them, each step running:
    after [writeBuffer], after the depth pass, after [argsort] and after the
    copy pass. *)
Definition sort_stages {F : Type} `{Scalar F} (this : DepthSorter) (projMatrix : mat4x4 F)
    (bufs : gmap handle (BufferData F)) : list (gmap handle (BufferData F)) :=
  let b1 := <[projMatrixBuffer this := Mat4Uniform projMatrix]> bufs in
  let b2 := computeDepth_pass (computeDepthPipeline this) (computeDepthBindGroup this)
                              (numThreads this) b1 in
  let b3 := argsort_pass (sorter this) (depthBuffer this) b2 in
  let b4 := copyToIndexBuffer_pass (copyToIndexBufferPipeline this)
                                   (copyToIndexBufferBindGroup this) (numThreads this) b3 in
  [b1; b2; b3; b4].

(** [(projMatrix * vec4<f32>(pos, 1.0)).z], the depth the shader computes
    for a position. *)
Definition projected_z {F : Type} `{Scalar F} (projMatrix : mat4x4 F) (pos : vec3 F) : F :=
  v4z (mat_mul_vec projMatrix (vec4_of pos (f_lit 1))).

(** The six entries of the index buffer for the primitive [index]:
    [index * 6 + vertex] for [vertex] = 0 .. 5. *)
Definition quad_indices (index : N) : list N :=
  (fun vertex => (index * 6 + vertex)%N) <$> for_range 0 6.

(** A small scene for concrete runs: three primitives on the z axis, the
    identity projection. *)
Definition identity_matrix : mat4x4 Z :=
  Mat4x4 (Vec4 1 0 0 0)%Z (Vec4 0 1 0 0)%Z (Vec4 0 0 1 0)%Z (Vec4 0 0 0 1)%Z.

Definition example_gaussians : PackedGaussians Z :=
  MkPackedGaussians 3%N [Vec3 0 0 5; Vec3 0 0 1; Vec3 0 0 3]%Z.

Definition example_sorter : DepthSorter :=
  fst (DepthSorter_new (empty_device Z) example_gaussians).

Definition example_device : Device Z :=
  snd (DepthSorter_new (empty_device Z) example_gaussians).

(** The same scene with the first primitive farther than the sentinel. *)
Definition far_gaussians : PackedGaussians Z :=
  MkPackedGaussians 3%N [Vec3 0 0 2000000; Vec3 0 0 0; Vec3 0 0 1]%Z.

(** A device whose first submission will fault. *)
Definition faulting_device : Device Z := MkDevice ∅ 0 false [true].


(** * Properties *)

(** ** [nextPowerOfTwo] *)

Local Open Scope N_scope.

Lemma nextPowerOfTwo_pos_cases (x : N) :
  0 < x ->
  (2 ^ N.log2 x = x /\ nextPowerOfTwo x = x) \/
  (2 ^ N.log2 x < x /\ nextPowerOfTwo x = 2 ^ (N.log2 x + 1)).
Proof.
  intros Hx. unfold nextPowerOfTwo, Math_log2.
  destruct (N.eqb_spec x 0) as [->|_]; [lia|].
  pose proof (N.log2_spec x Hx) as [Hlo _].
  destruct (N.eqb_spec (2 ^ N.log2 x) x) as [Heq|Hne]; simpl.
  - left. split; [exact Heq | exact Heq].
  - right. split; [lia | reflexivity].
Qed.

(** C6: for every count [x] with [1 <= x < 2^32] (the counts the program
    can hold, and the range in which the binary64 [Math.log2] is modelled),
    [nextPowerOfTwo x] is a power of two, is at least [x], is below every
    other power of two that is at least [x], and is [x] itself when [x] is
    a power of two. *)
Theorem nextPowerOfTwo_smallest_power (x : N) :
  1 <= x -> x < 2 ^ 32 ->
  (exists e, nextPowerOfTwo x = 2 ^ e) /\
  x <= nextPowerOfTwo x /\
  (forall e, x <= 2 ^ e -> nextPowerOfTwo x <= 2 ^ e) /\
  (forall e, x = 2 ^ e -> nextPowerOfTwo x = x).
Proof.
  intros Hx _. assert (Hpos : 0 < x) by lia.
  pose proof (N.log2_spec x Hpos) as [Hlo Hhi].
  rewrite <- N.add_1_r in Hhi.
  destruct (nextPowerOfTwo_pos_cases x Hpos) as [[Hp ->]|[Hp ->]].
  - repeat split.
    + exists (N.log2 x). symmetry. exact Hp.
    + lia.
    + intros e He. exact He.
  - repeat split.
    + exists (N.log2 x + 1). reflexivity.
    + lia.
    + intros e He.
      apply N.pow_le_mono_r; [lia|].
      destruct (N.le_gt_cases e (N.log2 x)) as [Hle|Hgt]; [|lia].
      pose proof (N.pow_le_mono_r 2 e (N.log2 x) ltac:(lia) Hle). lia.
    + intros e He. subst x. rewrite N.log2_pow2 in Hp by lia. lia.
Qed.

Lemma nextPowerOfTwo_smallest_power_witness :
  1 <= 2049 /\ 2049 < 2 ^ 32 /\
  ((exists e, nextPowerOfTwo 2049 = 2 ^ e) /\
   2049 <= nextPowerOfTwo 2049 /\
   (forall e, 2049 <= 2 ^ e -> nextPowerOfTwo 2049 <= 2 ^ e) /\
   (forall e, 2049 = 2 ^ e -> nextPowerOfTwo 2049 = 2049)).
Proof.
  split; [lia|]. split; [reflexivity|].
  apply (nextPowerOfTwo_smallest_power 2049); [lia | reflexivity].
Defined.

(** C7: for an empty set of primitives the constructor computes the padded
    length [0] (not [1]): [Math.log2(0)] is [-Infinity] and [2^-Infinity]
    is [0].  The index buffer gets no entry and [itemsPerThread] is [0],
    the divisor being the constant [1024]. *)
Theorem constructor_empty_padded_length :
  let this := fst (DepthSorter_new (empty_device Z) (MkPackedGaussians 0 [])) in
  nextPowerOfTwo 0 = 0 /\
  nPadded this = 0 /\
  nPadded this <> 1 /\
  (forall e, nPadded this <> 2 ^ e) /\
  numThreads this = 1024 /\
  itemsPerThread (computeDepthPipeline this) = 0 /\
  u32_contents (snd (DepthSorter_new (empty_device Z) (MkPackedGaussians 0 [])))
               (indexBuffer this) = Some [].
Proof.
  cbv zeta. repeat split; try reflexivity.
  - discriminate.
  - intros e He. change (0 = 2 ^ e) in He.
    pose proof (N.pow_nonzero 2 e ltac:(lia)). lia.
Qed.

(** ** Loops and stores *)

Lemma for_range_length (a b : N) : length (for_range a b) = N.to_nat (b - a).
Proof. unfold for_range. rewrite length_fmap, length_seq. reflexivity. Qed.

Lemma elem_of_for_range (a b x : N) : x ∈ for_range a b <-> a <= x < b.
Proof.
  unfold for_range. rewrite list_elem_of_fmap. split.
  - intros (d & -> & Hd). apply elem_of_seq in Hd. lia.
  - intros Hx. exists (N.to_nat (x - a)). split; [lia|].
    apply elem_of_seq. lia.
Qed.

Lemma for_range_split (a b k : N) :
  a <= k < b -> for_range a b = for_range a k ++ k :: for_range (k + 1) b.
Proof.
  intros Hk. unfold for_range.
  replace (N.to_nat (b - a)) with (N.to_nat (k - a) + S (N.to_nat (b - (k + 1))))%nat by lia.
  rewrite seq_app, fmap_app. f_equal. simpl. f_equal; [lia|].
  replace (S (N.to_nat (k - a))) with (S (N.to_nat (k - a)) + 0)%nat by lia.
  rewrite <- fmap_add_seq. change (list_fmap nat N) with (@fmap list _ nat N).
  rewrite <- list_fmap_compose.
  apply list_fmap_ext. intros _ d _. simpl. lia.
Qed.

Lemma elem_of_invocations (n g : N) : g ∈ invocations n <-> g < n.
Proof.
  unfold invocations. rewrite list_elem_of_fmap. split.
  - intros (d & -> & Hd). apply elem_of_seq in Hd. lia.
  - intros Hg. exists (N.to_nat g). split; [lia|]. apply elem_of_seq. lia.
Qed.

Lemma apply_stores_snoc {V : Type} (buf : list V) sts st :
  apply_stores buf (sts ++ [st]) = apply_store (apply_stores buf sts) st.
Proof. unfold apply_stores. rewrite foldl_app. reflexivity. Qed.

Lemma written_snoc {V : Type} (sts : list (store V)) st p :
  written (sts ++ [st]) p =
  if decide (N.to_nat (fst st) = p) then Some (snd st) else written sts p.
Proof. unfold written. rewrite foldl_app. reflexivity. Qed.

Lemma apply_stores_length {V : Type} (buf : list V) sts :
  length (apply_stores buf sts) = length buf.
Proof.
  induction sts as [|st sts IH] using rev_ind; [reflexivity|].
  rewrite apply_stores_snoc. unfold apply_store. rewrite length_insert. exact IH.
Qed.

(** A buffer after a list of stores: a position holds the last value stored
    to it, or what it held before when nothing was stored to it. *)
Lemma apply_stores_lookup {V : Type} (buf : list V) sts (p : nat) :
  apply_stores buf sts !! p =
  match written sts p with
  | Some v => if decide (p < length buf)%nat then Some v else None
  | None => buf !! p
  end.
Proof.
  induction sts as [|st sts IH] using rev_ind; [reflexivity|].
  rewrite apply_stores_snoc, written_snoc. unfold apply_store.
  destruct (decide (N.to_nat (fst st) = p)) as [Heq|Hne].
  - rewrite Heq. destruct (decide (p < length buf)%nat) as [Hlt|Hge].
    + apply list_lookup_insert_eq. rewrite apply_stores_length. exact Hlt.
    + apply lookup_ge_None. rewrite length_insert, apply_stores_length. lia.
  - rewrite list_lookup_insert_ne by exact Hne. exact IH.
Qed.

Lemma written_Some_elem {V : Type} (sts : list (store V)) p v :
  written sts p = Some v -> exists st, st ∈ sts /\ N.to_nat (fst st) = p /\ snd st = v.
Proof.
  induction sts as [|st sts IH] using rev_ind; [discriminate|].
  rewrite written_snoc. destruct (decide (N.to_nat (fst st) = p)) as [Heq|Hne].
  - intros [= <-]. exists st. split; [apply elem_of_app; right; constructor | done].
  - intros Hw. destruct (IH Hw) as (st' & Hin & Hp & Hv).
    exists st'. split; [apply elem_of_app; left; exact Hin | done].
Qed.

Lemma written_None_iff {V : Type} (sts : list (store V)) p :
  written sts p = None <-> forall st, st ∈ sts -> N.to_nat (fst st) <> p.
Proof.
  induction sts as [|st sts IH] using rev_ind.
  - split; [intros _ st Hst; inversion Hst | reflexivity].
  - rewrite written_snoc. destruct (decide (N.to_nat (fst st) = p)) as [Heq|Hne].
    + split; [discriminate|]. intros Hall. exfalso.
      apply (Hall st); [apply elem_of_app; right; constructor | exact Heq].
    + rewrite IH. split.
      * intros Hall st' Hin. apply elem_of_app in Hin as [Hin|Hin]; [auto|].
        apply list_elem_of_singleton in Hin. subst st'. exact Hne.
      * intros Hall st' Hin. apply Hall. apply elem_of_app. left. exact Hin.
Qed.

(** Running the same stores again changes nothing. *)
Lemma apply_stores_idempotent {V : Type} (buf : list V) sts :
  apply_stores (apply_stores buf sts) sts = apply_stores buf sts.
Proof.
  apply list_eq. intros p.
  rewrite (apply_stores_lookup (apply_stores buf sts)), apply_stores_length.
  rewrite (apply_stores_lookup buf).
  destruct (written sts p); reflexivity.
Qed.

(** When every store carries the value [g] assigns to its position, a
    position that is stored to and lies inside the buffer ends with that
    value. *)
Lemma apply_stores_functional {V : Type} (g : nat -> V) (buf : list V) sts st :
  (forall st', st' ∈ sts -> snd st' = g (N.to_nat (fst st'))) ->
  st ∈ sts ->
  (N.to_nat (fst st) < length buf)%nat ->
  apply_stores buf sts !! N.to_nat (fst st) = Some (g (N.to_nat (fst st))).
Proof.
  intros Hfun Hin Hlt. rewrite apply_stores_lookup.
  destruct (written sts (N.to_nat (fst st))) as [v|] eqn:Hw.
  - apply written_Some_elem in Hw as (st' & Hin' & Hp & Hv).
    rewrite decide_True by exact Hlt. rewrite <- Hv, (Hfun st' Hin'), Hp. reflexivity.
  - exfalso. rewrite written_None_iff in Hw. exact (Hw st Hin eq_refl).
Qed.

Lemma u32_small (x : N) : x < 2 ^ 32 -> u32 x = x.
Proof. intros Hx. unfold u32. apply N.mod_small. exact Hx. Qed.

Lemma ceil_div_bounds (n t : N) :
  0 < t -> n <= t * ceil_div n t /\ t * ceil_div n t < n + t.
Proof.
  intros Ht. unfold ceil_div.
  pose proof (N.div_mod' n t) as Hdm.
  pose proof (N.mod_upper_bound n t ltac:(lia)) as Hub.
  destruct (N.eqb_spec (n mod t) 0) as [Hz|Hnz];
    generalize dependent (n mod t); generalize dependent (n / t); intros q r; nia.
Qed.

(** Every index below [count] falls into the chunk of exactly one of the
    first [t] invocations, and the chunk bounds do not wrap. *)
Lemma chunk_of_index (t ipt k : N) :
  k < t * ipt -> t * ipt < 2 ^ 32 ->
  let g := k / ipt in
  g < t /\ u32 (g * ipt) <= k < u32 ((g + 1) * ipt).
Proof.
  intros Hk Hbound g.
  assert (Hipt : ipt <> 0) by (intros ->; lia).
  pose proof (N.div_mod' k ipt) as Hdm.
  pose proof (N.mod_upper_bound k ipt Hipt) as Hub.
  fold g in Hdm.
  assert (Hg : g < t) by (apply N.Div0.div_lt_upper_bound; lia).
  clearbody g. generalize dependent (k mod ipt). intros r Hdm Hub.
  split; [exact Hg|].
  assert (Hlo : g * ipt <= k) by (rewrite N.mul_comm; lia).
  assert (Hhi : k < (g + 1) * ipt)
    by (rewrite N.mul_add_distr_r, N.mul_1_l, (N.mul_comm g ipt); lia).
  assert (Htop : (g + 1) * ipt <= t * ipt) by (apply N.mul_le_mono_r; lia).
  rewrite !u32_small by lia. lia.
Qed.

(** ** The Index Expansion Stage *)

Lemma elem_of_copy_vertices (i index : N) (st : store N) :
  st ∈ copy_vertices i index <->
  exists v, v < 6 /\ st = (u32 (u32 (i * 6) + v), u32 (u32 (index * 6) + v)).
Proof.
  unfold copy_vertices. rewrite list_elem_of_fmap. split.
  - intros (v & -> & Hv). apply elem_of_for_range in Hv. exists v. split; [lia | reflexivity].
  - intros (v & Hv & ->). exists v. split; [reflexivity|]. apply elem_of_for_range. lia.
Qed.

Lemma elem_of_copy_loop (n : N) (indices idxs : list N) (st : store N) :
  st ∈ copy_loop n indices idxs ->
  exists i, i ∈ idxs /\ i < n /\
            st ∈ copy_vertices i (default 0 (indices !! N.to_nat i)).
Proof.
  induction idxs as [|i rest IH]; cbn [copy_loop]; [intros Hin; inversion Hin|].
  destruct (N.leb_spec n i) as [Hge|Hlt]; [intros Hin; inversion Hin|].
  rewrite elem_of_app. intros [Hin|Hin].
  - exists i. split; [constructor | split; [exact Hlt | exact Hin]].
  - destruct (IH Hin) as (i' & Hi' & Hlt' & Hst).
    exists i'. split; [constructor; exact Hi' | split; [exact Hlt' | exact Hst]].
Qed.

Lemma copy_loop_reaches (n : N) (indices before after : list N) (k : N) (st : store N) :
  (forall x, x ∈ before -> x < n) -> k < n ->
  st ∈ copy_vertices k (default 0 (indices !! N.to_nat k)) ->
  st ∈ copy_loop n indices (before ++ k :: after).
Proof.
  intros Hbefore Hk Hst. induction before as [|x before IH]; cbn [copy_loop app].
  - destruct (N.leb_spec n k) as [Hge|_]; [lia|]. apply elem_of_app. left. exact Hst.
  - destruct (N.leb_spec n x) as [Hge|_].
    + specialize (Hbefore x ltac:(constructor)). lia.
    + apply elem_of_app. right. apply IH. intros y Hy. apply Hbefore. constructor. exact Hy.
Qed.

(** The stores of the stage, one by one: each writes [index * 6 + vertex]
    to position [i * 6 + vertex] for a primitive [i] below the count. *)
Lemma copyToIndexBuffer_stores_shape (t ipt n : N) (indices : list N) (st : store N) :
  st ∈ copyToIndexBuffer_stores t ipt n indices ->
  exists i v, i < n /\ v < 6 /\
    st = (u32 (u32 (i * 6) + v),
          u32 (u32 (default 0 (indices !! N.to_nat i) * 6) + v)).
Proof.
  unfold copyToIndexBuffer_stores, copyToIndexBuffer_main.
  rewrite list_elem_of_bind. intros (g & Hst & _).
  apply elem_of_copy_loop in Hst as (i & _ & Hi & Hst).
  apply elem_of_copy_vertices in Hst as (v & Hv & ->).
  exists i, v. done.
Qed.

(** Every primitive below the count is reached by an invocation. *)
Lemma copyToIndexBuffer_stores_cover (t ipt n : N) (indices : list N) (k v : N) :
  k < n -> n <= t * ipt -> t * ipt < 2 ^ 32 -> v < 6 ->
  (u32 (u32 (k * 6) + v), u32 (u32 (default 0 (indices !! N.to_nat k) * 6) + v))
    ∈ copyToIndexBuffer_stores t ipt n indices.
Proof.
  intros Hk Hn Hbound Hv.
  destruct (chunk_of_index t ipt k ltac:(lia) Hbound) as [Hg Hrange].
  unfold copyToIndexBuffer_stores. apply list_elem_of_bind.
  exists (k / ipt). split; [|apply elem_of_invocations; exact Hg].
  unfold copyToIndexBuffer_main.
  rewrite (for_range_split _ _ k Hrange).
  apply copy_loop_reaches.
  - intros x Hx. apply elem_of_for_range in Hx. lia.
  - exact Hk.
  - apply elem_of_copy_vertices. exists v. done.
Qed.

Lemma index_position_decompose (i v : N) :
  v < 6 ->
  (N.to_nat (i * 6 + v) / 6)%nat = N.to_nat i /\
  (N.to_nat (i * 6 + v) mod 6)%nat = N.to_nat v.
Proof.
  intros Hv. split; symmetry.
  - apply (Nat.div_unique _ 6 _ (N.to_nat v)); lia.
  - apply (Nat.mod_unique _ 6 (N.to_nat i)); lia.
Qed.

Lemma copyToIndexBuffer_stores_exact (t ipt n : N) (permutation : list N) (st : store N) :
  n * 6 <= 2 ^ 32 ->
  (N.to_nat n <= length permutation)%nat ->
  (forall idx, idx ∈ permutation -> idx * 6 + 5 < 2 ^ 32) ->
  st ∈ copyToIndexBuffer_stores t ipt n permutation ->
  fst st < n * 6 /\ snd st = expanded_at permutation (N.to_nat (fst st)).
Proof.
  intros Hn Hlen Hfit Hst.
  apply copyToIndexBuffer_stores_shape in Hst as (i & v & Hi & Hv & ->).
  destruct (lookup_lt_is_Some_2 permutation (N.to_nat i) ltac:(lia)) as [idx Hidx].
  pose proof (Hfit idx ltac:(eapply list_elem_of_lookup_2; exact Hidx)) as Hb.
  rewrite Hidx. cbn [default fst snd from_option id].
  rewrite (u32_small (i * 6)) by lia. rewrite (u32_small (i * 6 + v)) by lia.
  rewrite (u32_small (idx * 6)) by lia. rewrite (u32_small (idx * 6 + v)) by lia.
  split; [lia|].
  unfold expanded_at.
  destruct (index_position_decompose i v Hv) as [-> ->].
  rewrite Hidx. cbn [default from_option id]. lia.
Qed.

(** C4: the Index Expansion Stage, as the constructor builds it (1024
    invocations, [ceil(n / 1024)] items each), run on a permutation buffer
    whose entries expand within [u32]: for every [k < n] the entries
    [6k .. 6k+5] of the index buffer become [6 * permutation[k] + v], and
    every store of the stage goes to a position below [6n]; the buffer keeps
    its [6n] entries. *)
Theorem copyToIndexBuffer_expansion (n : N) (permutation indexBuf : list N) :
  n * 6 <= 2 ^ 32 ->
  length indexBuf = N.to_nat (n * 6) ->
  (N.to_nat n <= length permutation)%nat ->
  (forall idx, idx ∈ permutation -> idx * 6 + 5 < 2 ^ 32) ->
  let stores := copyToIndexBuffer_stores 1024 (ceil_div n 1024) n permutation in
  let out := apply_stores indexBuf stores in
  length out = N.to_nat (n * 6) /\
  (forall k v idx, k < n -> v < 6 -> permutation !! N.to_nat k = Some idx ->
     out !! N.to_nat (6 * k + v) = Some (6 * idx + v)) /\
  (forall st, st ∈ stores -> fst st < n * 6).
Proof.
  intros Hn Hlen Hperm Hfit stores out.
  split; [unfold out; rewrite apply_stores_length; exact Hlen|].
  split.
  - intros k v idx Hk Hv Hidx.
    destruct (ceil_div_bounds n 1024 ltac:(lia)) as [Hcover Htop].
    pose proof (copyToIndexBuffer_stores_cover 1024 (ceil_div n 1024) n permutation
                  k v Hk Hcover ltac:(lia) Hv) as Hin.
    fold stores in Hin.
    pose proof (Hfit idx ltac:(eapply list_elem_of_lookup_2; exact Hidx)) as Hb.
    pose proof (apply_stores_functional (expanded_at permutation) indexBuf stores _
                  (fun st' Hst' => proj2 (copyToIndexBuffer_stores_exact _ _ _ _ st'
                                            Hn Hperm Hfit Hst')) Hin) as Hlook.
    cbn [fst] in Hlook.
    rewrite (u32_small (k * 6)) in Hlook by lia.
    rewrite (u32_small (k * 6 + v)) in Hlook by lia.
    replace (6 * k + v) with (k * 6 + v) by lia.
    unfold out. rewrite Hlook by lia.
    unfold expanded_at. destruct (index_position_decompose k v Hv) as [-> ->].
    rewrite Hidx. cbn [default from_option id]. f_equal. lia.
  - intros st Hst.
    exact (proj1 (copyToIndexBuffer_stores_exact _ _ _ _ st Hn Hperm Hfit Hst)).
Qed.

(** ** The Projection Stage *)

Section ProjectionStage.
Context {F : Type} `{Scalar F}.

Lemma computeDepth_body_position (n : N) (vs : list (vec3 F)) (m : mat4x4 F) (i : N) :
  fst (computeDepth_body n vs m i) = i.
Proof. unfold computeDepth_body. destruct (n <=? i); reflexivity. Qed.

Lemma elem_of_computeDepth_stores (t ipt n : N) (vs : list (vec3 F)) (m : mat4x4 F)
    (st : store F) :
  st ∈ computeDepth_stores t ipt n vs m <->
  exists g i, g < t /\ u32 (g * ipt) <= i < u32 ((g + 1) * ipt) /\
              st = computeDepth_body n vs m i.
Proof.
  unfold computeDepth_stores, computeDepth_main. rewrite list_elem_of_bind. split.
  - intros (g & Hst & Hg). apply elem_of_invocations in Hg.
    apply list_elem_of_fmap in Hst as (i & -> & Hi). apply elem_of_for_range in Hi.
    exists g, i. done.
  - intros (g & i & Hg & Hi & ->). exists g. split.
    + apply list_elem_of_fmap. exists i. split; [reflexivity|].
      apply elem_of_for_range. exact Hi.
    + apply elem_of_invocations. exact Hg.
Qed.

(** The stage stores to the positions below [t * ipt], and to no other. *)
Lemma computeDepth_stores_below (t ipt n : N) (vs : list (vec3 F)) (m : mat4x4 F)
    (st : store F) :
  t * ipt < 2 ^ 32 ->
  st ∈ computeDepth_stores t ipt n vs m -> fst st < t * ipt.
Proof.
  intros Hbound Hst.
  apply elem_of_computeDepth_stores in Hst as (g & i & Hg & Hi & ->).
  rewrite computeDepth_body_position.
  assert (Htop : (g + 1) * ipt <= t * ipt) by (apply N.mul_le_mono_r; lia).
  rewrite (u32_small ((g + 1) * ipt)) in Hi by lia. lia.
Qed.

Lemma computeDepth_stores_cover (t ipt n : N) (vs : list (vec3 F)) (m : mat4x4 F) (i : N) :
  i < t * ipt -> t * ipt < 2 ^ 32 ->
  computeDepth_body n vs m i ∈ computeDepth_stores t ipt n vs m.
Proof.
  intros Hi Hbound. apply elem_of_computeDepth_stores.
  destruct (chunk_of_index t ipt i Hi Hbound) as [Hg Hrange].
  exists (i / ipt), i. done.
Qed.
End ProjectionStage.

(** C2: the stores of the Projection Stage are not the [P] slots of the
    depth array.  With 2049 primitives ([P] = 4096, 3 items per invocation)
    every store goes below 3072, so the slots 3072 .. 4095 are never stored
    to; with one primitive ([P] = 1, one item per invocation) the invocation
    1 stores the sentinel to position 1, outside the array. *)
Theorem computeDepth_stores_miss_and_overrun (vs : list (vec3 Z)) (m : mat4x4 Z) :
  (nextPowerOfTwo 2049 = 4096 /\
   forall st, st ∈ computeDepth_stores 1024 (ceil_div 2049 1024) 2049 vs m ->
              fst st < 3072) /\
  (nextPowerOfTwo 1 = 1 /\
   (1, 1000000%Z) ∈ computeDepth_stores 1024 (ceil_div 1 1024) 1 vs m).
Proof.
  split; split; try reflexivity.
  - intros st Hst. change (ceil_div 2049 1024) with 3 in Hst.
    apply computeDepth_stores_below in Hst; lia.
  - change (ceil_div 1 1024) with 1.
    change (1, 1000000%Z) with (computeDepth_body 1 vs m 1).
    apply computeDepth_stores_cover; lia.
Qed.

(** C1: with 2049 primitives the slot 3072 of the depth array, a padding
    slot ([2049 <= 3072 < 4096]), is not given the sentinel by the
    Projection Stage: it keeps what it held, which is [0] in the buffer the
    constructor creates. *)
Theorem computeDepth_padding_slot_unwritten (vs : list (vec3 Z)) (m : mat4x4 Z)
    (depths : list Z) :
  nextPowerOfTwo 2049 = 4096 /\
  apply_stores depths (computeDepth_stores 1024 (ceil_div 2049 1024) 2049 vs m) !! 3072%nat
  = depths !! 3072%nat /\
  apply_stores (replicate (N.to_nat (nextPowerOfTwo 2049)) 0%Z)
               (computeDepth_stores 1024 (ceil_div 2049 1024) 2049 vs m) !! 3072%nat
  = Some 0%Z.
Proof.
  assert (Hnone : written (computeDepth_stores 1024 (ceil_div 2049 1024) 2049 vs m)
                          3072%nat = None).
  { apply written_None_iff. intros st Hst. change (ceil_div 2049 1024) with 3 in Hst.
    apply computeDepth_stores_below in Hst; lia. }
  split; [reflexivity|]. split.
  - rewrite apply_stores_lookup, Hnone. reflexivity.
  - rewrite apply_stores_lookup, Hnone. apply lookup_replicate_2.
    change (nextPowerOfTwo 2049) with 4096. lia.
Qed.


Local Open Scope nat_scope.

(** ** The sort network: positions *)

(** Positions are taken apart as [c * (2 * m) + r] (lower half of the
    sub-block [c]) or [c * (2 * m) + m + r] (upper half), with [r < m]. *)
Lemma position_cases (m i : nat) :
  0 < m ->
  exists c r, r < m /\ (i = c * (2 * m) + r \/ i = c * (2 * m) + m + r).
Proof.
  intros Hm.
  pose proof (Nat.div_mod_eq i (2 * m)) as Hdm.
  pose proof (Nat.mod_upper_bound i (2 * m) ltac:(lia)) as Hub.
  generalize dependent (i mod (2 * m)). generalize dependent (i / (2 * m)).
  intros c rho Hdm Hub.
  destruct (Nat.lt_ge_cases rho m) as [Hlt|Hge].
  - exists c, rho. split; [exact Hlt|]. left. lia.
  - exists c, (rho - m). split; [lia|]. right. lia.
Qed.

Lemma div_lower_half (m c r : nat) : r < m -> (c * (2 * m) + r) / m = 2 * c.
Proof. intros Hr. symmetry. apply (Nat.div_unique _ _ _ r); [exact Hr | ring]. Qed.

Lemma div_upper_half (m c r : nat) : r < m -> (c * (2 * m) + m + r) / m = 2 * c + 1.
Proof. intros Hr. symmetry. apply (Nat.div_unique _ _ _ r); [exact Hr | ring]. Qed.

Lemma div_sub_block (u c rho : nat) : rho < u -> (c * u + rho) / u = c.
Proof. intros Hr. symmetry. apply (Nat.div_unique _ _ _ rho); [exact Hr | ring]. Qed.

Lemma div_block (u q c rho : nat) : rho < u -> (c * u + rho) / (q * u) = c / q.
Proof.
  intros Hr. rewrite (Nat.mul_comm q u), <- Nat.Div0.div_div.
  rewrite div_sub_block by exact Hr. reflexivity.
Qed.

Section PassPairs.
Context {A : Type} (gt : A -> A -> bool).

Lemma compare_exchange_pass_length (k j : nat) (a : list A) :
  length (compare_exchange_pass gt k j a) = length a.
Proof. unfold compare_exchange_pass. apply length_imap. Qed.

(** One pass, seen pair by pair: the elements [x] and [y] at distance [m]
    in the sub-block [c] are exchanged when they are out of order for the
    direction of their block. *)
Lemma compare_exchange_pass_pair (m q c r : nat) (a : list A) (x y : A) :
  r < m ->
  a !! (c * (2 * m) + r) = Some x ->
  a !! (c * (2 * m) + m + r) = Some y ->
  let exchange := if Nat.even (c / q) then gt x y else gt y x in
  compare_exchange_pass gt (q * (2 * m)) m a !! (c * (2 * m) + r)
    = Some (if exchange then y else x) /\
  compare_exchange_pass gt (q * (2 * m)) m a !! (c * (2 * m) + m + r)
    = Some (if exchange then x else y).
Proof.
  intros Hr Hx Hy exchange. unfold compare_exchange_pass.
  rewrite !list_lookup_imap, Hx, Hy. cbn [fmap option_fmap option_map].
  unfold compare_exchange_at.
  rewrite div_lower_half, div_upper_half by exact Hr.
  rewrite Nat.even_even, Nat.even_odd.
  replace (c * (2 * m) + r + m) with (c * (2 * m) + m + r) by lia.
  replace (c * (2 * m) + m + r - m) with (c * (2 * m) + r) by lia.
  rewrite Hx, Hy.
  rewrite (div_block (2 * m) q c r) by lia.
  replace (c * (2 * m) + m + r) with (c * (2 * m) + (m + r)) by lia.
  rewrite (div_block (2 * m) q c (m + r)) by lia.
  split; reflexivity.
Qed.
End PassPairs.

(** ** The sort network under a monotone map of the elements *)

Section NetworkMap.
Context {A B : Type} (gtA : A -> A -> bool) (gtB : B -> B -> bool) (g : A -> B).

(** [g] is compatible with the two comparisons: it never reverses an order
    and may only merge elements. *)
Hypothesis g_reflects : forall x y, gtB (g x) (g y) = true -> gtA x y = true.
Hypothesis g_merges : forall x y,
  gtA x y = true -> gtB (g x) (g y) = false -> g x = g y.

Lemma exchange_map (x y : A) :
  g (if gtA x y then y else x) = (if gtB (g x) (g y) then g y else g x) /\
  g (if gtA x y then x else y) = (if gtB (g x) (g y) then g x else g y).
Proof.
  destruct (gtA x y) eqn:HA, (gtB (g x) (g y)) eqn:HB; try done.
  - rewrite (g_merges x y HA HB). done.
  - rewrite (g_reflects x y HB) in HA. discriminate.
Qed.

Lemma compare_exchange_at_map (k j : nat) (a : list A) (i : nat) (x : A) :
  g (compare_exchange_at gtA k j a i x)
  = compare_exchange_at gtB k j (g <$> a) i (g x).
Proof.
  unfold compare_exchange_at. rewrite list_lookup_fmap.
  destruct (a !! (if Nat.even (i / j) then i + j else i - j)) as [y|];
    cbn [fmap option_fmap option_map]; [|reflexivity].
  destruct (Nat.even (i / j)), (Nat.even (i / k)).
  - apply (exchange_map x y).
  - destruct (exchange_map y x) as [_ Hm]. exact Hm.
  - destruct (exchange_map y x) as [_ Hm]. exact Hm.
  - apply (exchange_map x y).
Qed.

Lemma compare_exchange_pass_map (k j : nat) (a : list A) :
  g <$> compare_exchange_pass gtA k j a = compare_exchange_pass gtB k j (g <$> a).
Proof.
  apply list_eq. intros i. unfold compare_exchange_pass.
  rewrite list_lookup_fmap, !list_lookup_imap, list_lookup_fmap.
  destruct (a !! i) as [x|]; cbn [fmap option_fmap option_map]; [|reflexivity].
  f_equal. apply compare_exchange_at_map.
Qed.

Lemma merge_passes_map (k c : nat) (a : list A) :
  g <$> merge_passes gtA k c a = merge_passes gtB k c (g <$> a).
Proof.
  revert a. induction c as [|c IH]; intros a; cbn [merge_passes]; [reflexivity|].
  rewrite IH, compare_exchange_pass_map. reflexivity.
Qed.

Lemma bitonic_network_map (n : nat) (a : list A) :
  g <$> bitonic_network gtA n a = bitonic_network gtB n (g <$> a).
Proof.
  induction n as [|n IH]; cbn [bitonic_network]; [reflexivity|].
  unfold bitonic_stage. rewrite merge_passes_map, IH. reflexivity.
Qed.
End NetworkMap.

(** ** The sort network permutes its input *)

Section NetworkPermutation.
Context {A : Type} (gt : A -> A -> bool).

Lemma exchange_source_lookup (k j : nat) (a : list A) (i : nat) :
  compare_exchange_pass gt k j a !! i = a !! exchange_source gt k j a i.
Proof.
  unfold compare_exchange_pass, exchange_source, compare_exchange_at.
  rewrite list_lookup_imap.
  destruct (a !! i) as [x|] eqn:Hx; cbn [fmap option_fmap option_map]; [|by rewrite Hx].
  destruct (a !! (if Nat.even (i / j) then i + j else i - j)) as [y|] eqn:Hy;
    [|by rewrite Hx].
  match goal with |- context [if ?b then y else x] => destruct b end; by rewrite ?Hx, ?Hy.
Qed.

Lemma exchange_source_lower (m q c r : nat) (a : list A) :
  r < m ->
  exchange_source gt (q * (2 * m)) m a (c * (2 * m) + r) =
  match a !! (c * (2 * m) + r), a !! (c * (2 * m) + m + r) with
  | Some x, Some y =>
      if (if Nat.even (c / q) then gt x y else gt y x)
      then c * (2 * m) + m + r else c * (2 * m) + r
  | _, _ => c * (2 * m) + r
  end.
Proof.
  intros Hr. unfold exchange_source.
  rewrite div_lower_half by exact Hr. rewrite Nat.even_even.
  replace (c * (2 * m) + r + m) with (c * (2 * m) + m + r) by lia.
  rewrite (div_block (2 * m) q c r) by lia. reflexivity.
Qed.

Lemma exchange_source_upper (m q c r : nat) (a : list A) :
  r < m ->
  exchange_source gt (q * (2 * m)) m a (c * (2 * m) + m + r) =
  match a !! (c * (2 * m) + m + r), a !! (c * (2 * m) + r) with
  | Some y, Some x =>
      if (if Nat.even (c / q) then gt x y else gt y x)
      then c * (2 * m) + r else c * (2 * m) + m + r
  | _, _ => c * (2 * m) + m + r
  end.
Proof.
  intros Hr. unfold exchange_source.
  rewrite div_upper_half by exact Hr. rewrite Nat.even_odd.
  replace (c * (2 * m) + m + r - m) with (c * (2 * m) + r) by lia.
  replace (c * (2 * m) + m + r) with (c * (2 * m) + (m + r)) by lia.
  rewrite (div_block (2 * m) q c (m + r)) by lia. reflexivity.
Qed.

Lemma exchange_source_involutive (m q : nat) (a : list A) (i : nat) :
  0 < m ->
  exchange_source gt (q * (2 * m)) m a (exchange_source gt (q * (2 * m)) m a i) = i.
Proof.
  intros Hm. destruct (position_cases m i Hm) as (c & r & Hr & [-> | ->]).
  - rewrite (exchange_source_lower m q c r a Hr).
    destruct (a !! (c * (2 * m) + r)) as [x|] eqn:Hx;
      [|by rewrite (exchange_source_lower m q c r a Hr), Hx].
    destruct (a !! (c * (2 * m) + m + r)) as [y|] eqn:Hy;
      [|by rewrite (exchange_source_lower m q c r a Hr), Hx, Hy].
    destruct (if Nat.even (c / q) then gt x y else gt y x) eqn:He.
    + by rewrite (exchange_source_upper m q c r a Hr), Hx, Hy, He.
    + by rewrite (exchange_source_lower m q c r a Hr), Hx, Hy, He.
  - rewrite (exchange_source_upper m q c r a Hr).
    destruct (a !! (c * (2 * m) + m + r)) as [y|] eqn:Hy;
      [|by rewrite (exchange_source_upper m q c r a Hr), Hy].
    destruct (a !! (c * (2 * m) + r)) as [x|] eqn:Hx;
      [|by rewrite (exchange_source_upper m q c r a Hr), Hy, Hx].
    destruct (if Nat.even (c / q) then gt x y else gt y x) eqn:He.
    + by rewrite (exchange_source_lower m q c r a Hr), Hx, Hy, He.
    + by rewrite (exchange_source_upper m q c r a Hr), Hx, Hy, He.
Qed.

Lemma compare_exchange_pass_Permutation (m q : nat) (a : list A) :
  0 < m -> compare_exchange_pass gt (q * (2 * m)) m a ≡ₚ a.
Proof.
  intros Hm. apply Permutation_inj. split; [apply compare_exchange_pass_length|].
  exists (exchange_source gt (q * (2 * m)) m a). split.
  - intros i i' Heq.
    rewrite <- (exchange_source_involutive m q a i Hm),
            <- (exchange_source_involutive m q a i' Hm), Heq. reflexivity.
  - intros i. apply exchange_source_lookup.
Qed.

Lemma merge_passes_Permutation (c q : nat) (a : list A) :
  merge_passes gt (q * 2 ^ c) c a ≡ₚ a.
Proof.
  revert q a. induction c as [|c IH]; intros q a; cbn [merge_passes]; [reflexivity|].
  replace (q * 2 ^ S c) with ((2 * q) * 2 ^ c) by (rewrite Nat.pow_succ_r'; lia).
  rewrite IH.
  replace ((2 * q) * 2 ^ c) with (q * (2 * 2 ^ c)) by lia.
  apply compare_exchange_pass_Permutation.
  pose proof (Nat.pow_nonzero 2 c). lia.
Qed.

Lemma bitonic_network_Permutation (n : nat) (a : list A) :
  bitonic_network gt n a ≡ₚ a.
Proof.
  induction n as [|n IH]; cbn [bitonic_network]; [reflexivity|].
  unfold bitonic_stage.
  rewrite <- (Nat.mul_1_l (2 ^ S n)), merge_passes_Permutation. exact IH.
Qed.
End NetworkPermutation.

(** ** The sort network on 0-1 keys *)

Ltac split_comparisons :=
  repeat match goal with
         | |- context [?a <=? ?b] => destruct (Nat.leb_spec a b)
         | |- context [?a <? ?b] => destruct (Nat.ltb_spec a b)
         end.

Ltac bitonic_witness x lo hi Hf :=
  exists x, lo, hi; split; [lia|];
  let r := fresh "r" in let Hr := fresh "Hr" in
  intros r Hr; cbv beta; rewrite !Hf by lia;
  split_comparisons; cbn; try reflexivity; lia.

(** The half-cleaner on a bitonic 0-1 sequence of [2 * m] elements: the
    minima and the maxima of the pairs at distance [m] are bitonic, and
    either all the minima are 0 or all the maxima are 1. *)
Lemma half_cleaner_bitonic01 (f : nat -> bool) (m : nat) :
  bitonic01 f (2 * m) ->
  bitonic01 (fun r => f r && f (m + r)) m /\
  bitonic01 (fun r => f r || f (m + r)) m /\
  ((forall r, r < m -> f r && f (m + r) = false) \/
   (forall r, r < m -> f r || f (m + r) = true)).
Proof.
  intros (x & lo & hi & Hb & Hf).
  destruct (Nat.le_gt_cases (lo + m) hi) as [Hwide|Hnarrow]; destruct x.
  - (* zeros on a wide interval *)
    split; [bitonic_witness false 0 0 Hf|].
    split; [bitonic_witness true lo (hi - m) Hf|].
    left. intros r Hr. rewrite !Hf by lia. split_comparisons; cbn; try reflexivity; lia.
  - (* ones on a wide interval *)
    split; [bitonic_witness false lo (hi - m) Hf|].
    split; [bitonic_witness true 0 0 Hf|].
    right. intros r Hr. rewrite !Hf by lia. split_comparisons; cbn; try reflexivity; lia.
  - (* zeros on a narrow interval *)
    split.
    + destruct (Nat.le_gt_cases hi m); [bitonic_witness true lo hi Hf|].
      destruct (Nat.le_gt_cases m lo); [bitonic_witness true (lo - m) (hi - m) Hf|].
      bitonic_witness false (hi - m) lo Hf.
    + split; [bitonic_witness true 0 0 Hf|].
      right. intros r Hr. rewrite !Hf by lia. split_comparisons; cbn; try reflexivity; lia.
  - (* ones on a narrow interval *)
    split; [bitonic_witness false 0 0 Hf|].
    split.
    + destruct (Nat.le_gt_cases hi m); [bitonic_witness false lo hi Hf|].
      destruct (Nat.le_gt_cases m lo); [bitonic_witness false (lo - m) (hi - m) Hf|].
      bitonic_witness true (hi - m) lo Hf.
    + left. intros r Hr. rewrite !Hf by lia. split_comparisons; cbn; try reflexivity; lia.
Qed.

Lemma bitonic01_ext (f g : nat -> bool) (u : nat) :
  (forall r, r < u -> f r = g r) -> bitonic01 g u -> bitonic01 f u.
Proof.
  intros Hfg (x & lo & hi & Hb & Hg). exists x, lo, hi. split; [exact Hb|].
  intros r Hr. rewrite (Hfg r Hr). apply Hg. exact Hr.
Qed.

(** What a pass leaves at the two positions of a pair of 0-1 keys. *)
Lemma compare_exchange_pass01_pair (m q c r : nat) (a : list bool) :
  r < m -> c * (2 * m) + 2 * m <= length a ->
  compare_exchange_pass bgt (q * (2 * m)) m a !!! (c * (2 * m) + r)
  = (if Nat.even (c / q)
     then a !!! (c * (2 * m) + r) && a !!! (c * (2 * m) + m + r)
     else a !!! (c * (2 * m) + r) || a !!! (c * (2 * m) + m + r)) /\
  compare_exchange_pass bgt (q * (2 * m)) m a !!! (c * (2 * m) + m + r)
  = (if Nat.even (c / q)
     then a !!! (c * (2 * m) + r) || a !!! (c * (2 * m) + m + r)
     else a !!! (c * (2 * m) + r) && a !!! (c * (2 * m) + m + r)).
Proof.
  intros Hr Hlen.
  pose proof (list_lookup_lookup_total_lt a (c * (2 * m) + r) ltac:(lia)) as Hx.
  pose proof (list_lookup_lookup_total_lt a (c * (2 * m) + m + r) ltac:(lia)) as Hy.
  destruct (compare_exchange_pass_pair bgt m q c r a _ _ Hr Hx Hy) as [Hlo Hhi].
  apply list_lookup_total_correct in Hlo, Hhi. rewrite Hlo, Hhi.
  destruct (Nat.even (c / q)), (a !!! (c * (2 * m) + r)), (a !!! (c * (2 * m) + m + r));
    split; reflexivity.
Qed.

(** A sub-block index of the finer partition, as half of a sub-block of the
    coarser one. *)
Lemma sub_block_halves (c : nat) : exists c0 h, h < 2 /\ c = 2 * c0 + h.
Proof.
  exists (c / 2), (c mod 2). split.
  - apply Nat.mod_upper_bound. lia.
  - apply Nat.div_mod_eq.
Qed.

Lemma half_index_div (q c0 h : nat) : h < 2 -> (2 * c0 + h) / (2 * q) = c0 / q.
Proof.
  intros Hh. rewrite <- Nat.Div0.div_div. f_equal.
  symmetry. apply (Nat.div_unique _ _ _ h); [exact Hh | reflexivity].
Qed.

Lemma coarse_sub_block_fits (m nsub c0 h : nat) :
  0 < m -> (2 * c0 + h) * m + m <= nsub * (2 * m) -> c0 * (2 * m) + 2 * m <= nsub * (2 * m).
Proof.
  intros Hm Hfit.
  assert (Hlt : c0 < nsub) by nia.
  replace (c0 * (2 * m) + 2 * m) with ((c0 + 1) * (2 * m)) by ring.
  apply Nat.mul_le_mono_r. lia.
Qed.

(** The element a pass leaves in the half [h] of the sub-block [c0]. *)
Lemma compare_exchange_pass01_half (m q nsub c0 h r : nat) (a : list bool) :
  0 < m -> r < m -> h < 2 -> length a = nsub * (2 * m) ->
  (2 * c0 + h) * m + m <= length a ->
  compare_exchange_pass bgt (q * (2 * m)) m a !!! ((2 * c0 + h) * m + r)
  = (if xorb (Nat.even (c0 / q)) (Nat.eqb h 1)
     then a !!! (c0 * (2 * m) + r) && a !!! (c0 * (2 * m) + m + r)
     else a !!! (c0 * (2 * m) + r) || a !!! (c0 * (2 * m) + m + r)).
Proof.
  intros Hm Hr Hh Hlen Hfit. rewrite Hlen in Hfit.
  pose proof (coarse_sub_block_fits m nsub c0 h Hm Hfit) as Hfit0.
  rewrite <- Hlen in Hfit0.
  destruct (compare_exchange_pass01_pair m q c0 r a Hr Hfit0) as [Hlo Hhi].
  assert (Hcases : h = 0 \/ h = 1) by lia. destruct Hcases as [-> | ->].
  - replace ((2 * c0 + 0) * m + r) with (c0 * (2 * m) + r) by ring.
    rewrite Hlo. destruct (Nat.even (c0 / q)); reflexivity.
  - replace ((2 * c0 + 1) * m + r) with (c0 * (2 * m) + m + r) by ring.
    rewrite Hhi. destruct (Nat.even (c0 / q)); reflexivity.
Qed.

(** One pass refines the invariant: sub-blocks of [2 * m] elements become
    sub-blocks of [m] elements. *)
Lemma stage_invariant_pass (m q nsub : nat) (a : list bool) :
  0 < m -> length a = nsub * (2 * m) ->
  stage_invariant (2 * m) q a ->
  stage_invariant m (2 * q) (compare_exchange_pass bgt (q * (2 * m)) m a).
Proof.
  intros Hm Hlen [Hbit Hord]. split.
  - intros c Hc. rewrite compare_exchange_pass_length in Hc.
    destruct (sub_block_halves c) as (c0 & h & Hh & ->).
    assert (Hfit0 : c0 * (2 * m) + 2 * m <= length a).
    { rewrite Hlen. apply (coarse_sub_block_fits m nsub c0 h Hm). rewrite <- Hlen. exact Hc. }
    destruct (half_cleaner_bitonic01 _ m (Hbit c0 Hfit0)) as (Hand & Hor & _).
    destruct (xorb (Nat.even (c0 / q)) (Nat.eqb h 1)) eqn:Hdir.
    + eapply bitonic01_ext; [|exact Hand]. intros r Hr. cbv beta.
      rewrite (compare_exchange_pass01_half m q nsub c0 h r a Hm Hr Hh Hlen Hc), Hdir.
      rewrite Nat.add_assoc. reflexivity.
    + eapply bitonic01_ext; [|exact Hor]. intros r Hr. cbv beta.
      rewrite (compare_exchange_pass01_half m q nsub c0 h r a Hm Hr Hh Hlen Hc), Hdir.
      rewrite Nat.add_assoc. reflexivity.
  - intros c c' r r' Hlt Hdiv Hr Hr' Hc'. rewrite compare_exchange_pass_length in Hc'.
    destruct (sub_block_halves c) as (c0 & h & Hh & ->).
    destruct (sub_block_halves c') as (c0' & h' & Hh' & ->).
    rewrite !half_index_div in Hdiv by assumption.
    rewrite half_index_div by assumption.
    assert (Hc : (2 * c0 + h) * m + m <= length a) by nia.
    assert (Hfit0' : c0' * (2 * m) + 2 * m <= length a).
    { rewrite Hlen. apply (coarse_sub_block_fits m nsub c0' h' Hm). rewrite <- Hlen. exact Hc'. }
    rewrite (compare_exchange_pass01_half m q nsub c0 h r a Hm Hr Hh Hlen Hc).
    rewrite (compare_exchange_pass01_half m q nsub c0' h' r' a Hm Hr' Hh' Hlen Hc').
    rewrite <- Hdiv.
    destruct (Nat.lt_ge_cases c0 c0') as [Hlt0|Hge0].
    + assert (H1 : ordered01 (Nat.even (c0 / q))
                     (a !!! (c0 * (2 * m) + r)) (a !!! (c0' * (2 * m) + r')))
        by (apply Hord; [exact Hlt0 | exact Hdiv | lia | lia | exact Hfit0']).
      assert (H2 : ordered01 (Nat.even (c0 / q))
                     (a !!! (c0 * (2 * m) + r)) (a !!! (c0' * (2 * m) + m + r')))
        by (rewrite <- (Nat.add_assoc _ m r');
            apply Hord; [exact Hlt0 | exact Hdiv | lia | lia | exact Hfit0']).
      assert (H3 : ordered01 (Nat.even (c0 / q))
                     (a !!! (c0 * (2 * m) + m + r)) (a !!! (c0' * (2 * m) + r')))
        by (rewrite <- (Nat.add_assoc _ m r);
            apply Hord; [exact Hlt0 | exact Hdiv | lia | lia | exact Hfit0']).
      assert (H4 : ordered01 (Nat.even (c0 / q))
                     (a !!! (c0 * (2 * m) + m + r)) (a !!! (c0' * (2 * m) + m + r')))
        by (rewrite <- (Nat.add_assoc _ m r), <- (Nat.add_assoc _ m r');
            apply Hord; [exact Hlt0 | exact Hdiv | lia | lia | exact Hfit0']).
      clear Hbit Hord. unfold ordered01 in *.
      destruct (Nat.even (c0 / q)), (Nat.eqb h 1), (Nat.eqb h' 1),
        (a !!! (c0 * (2 * m) + r)), (a !!! (c0 * (2 * m) + m + r)),
        (a !!! (c0' * (2 * m) + r')), (a !!! (c0' * (2 * m) + m + r'));
        cbn [xorb andb orb] in *; auto.
    + assert (c0' = c0) by lia. subst c0'.
      assert (h = 0) by lia. assert (h' = 1) by lia. subst h h'.
      destruct (half_cleaner_bitonic01 _ m (Hbit c0 Hfit0')) as (_ & _ & Hclean).
      cbv beta in Hclean.
      assert (Hclean' :
        (forall r, r < m ->
           a !!! (c0 * (2 * m) + r) && a !!! (c0 * (2 * m) + m + r) = false) \/
        (forall r, r < m ->
           a !!! (c0 * (2 * m) + r) || a !!! (c0 * (2 * m) + m + r) = true)).
      { destruct Hclean as [Hz|Ho]; [left|right]; intros r0 Hr0;
          [specialize (Hz r0 Hr0) | specialize (Ho r0 Hr0)];
          rewrite Nat.add_assoc in *; assumption. }
      unfold ordered01. change (Nat.eqb 0 1) with false. change (Nat.eqb 1 1) with true.
      destruct Hclean' as [Hz|Ho].
      * pose proof (Hz r Hr) as Hzr. pose proof (Hz r' Hr') as Hzr'.
        destruct (Nat.even (c0 / q)); cbn [xorb]; rewrite ?Hzr, ?Hzr'; intros; congruence.
      * pose proof (Ho r Hr) as Hor. pose proof (Ho r' Hr') as Hor'.
        destruct (Nat.even (c0 / q)); cbn [xorb]; rewrite ?Hor, ?Hor'; intros; congruence.
Qed.

Lemma merge_passes_length {A : Type} (gt : A -> A -> bool) (k c : nat) (a : list A) :
  length (merge_passes gt k c a) = length a.
Proof.
  revert a. induction c as [|c IH]; intros a; cbn [merge_passes]; [reflexivity|].
  rewrite IH. apply compare_exchange_pass_length.
Qed.

Lemma bitonic_network_length {A : Type} (gt : A -> A -> bool) (n : nat) (a : list A) :
  length (bitonic_network gt n a) = length a.
Proof.
  induction n as [|n IH]; cbn [bitonic_network]; [reflexivity|].
  unfold bitonic_stage. rewrite merge_passes_length. exact IH.
Qed.

(** The passes of a major stage bring sub-blocks of [2^c] elements down to
    single elements. *)
Lemma stage_invariant_merge_passes (c q nsub : nat) (a : list bool) :
  length a = nsub * 2 ^ c ->
  stage_invariant (2 ^ c) q a ->
  stage_invariant 1 (q * 2 ^ c) (merge_passes bgt (q * 2 ^ c) c a).
Proof.
  revert q nsub a. induction c as [|c IH]; intros q nsub a Hlen Hinv.
  - cbn [merge_passes]. rewrite Nat.pow_0_r, Nat.mul_1_r in *. exact Hinv.
  - cbn [merge_passes]. rewrite Nat.pow_succ_r' in *.
    assert (Hpos : 0 < 2 ^ c) by (pose proof (Nat.pow_nonzero 2 c); lia).
    pose proof (stage_invariant_pass (2 ^ c) q nsub a Hpos Hlen Hinv) as Hstep.
    replace (q * (2 * 2 ^ c)) with (2 * q * 2 ^ c) in * by lia.
    apply (IH (2 * q) (2 * nsub)); [|exact Hstep].
    rewrite compare_exchange_pass_length, Hlen. lia.
Qed.

Lemma monotone01_threshold (g : nat -> bool) (k : nat) :
  (forall r1 r2, r1 < r2 -> r2 < k -> g r1 = true -> g r2 = true) ->
  exists t, t <= k /\ forall r, r < k -> g r = (t <=? r).
Proof.
  induction k as [|k IH]; intros Hmono.
  - exists 0. split; [lia|]. intros r Hr. lia.
  - destruct IH as (t & Ht & Hg); [intros r1 r2 H1 H2; apply Hmono; lia|].
    destruct (Nat.eq_dec t k) as [->|Hne].
    + destruct (g k) eqn:Hgk.
      * exists k. split; [lia|]. intros r Hr.
        destruct (Nat.eq_dec r k) as [->|Hrk]; [rewrite Hgk; symmetry; apply Nat.leb_le; lia|].
        apply Hg. lia.
      * exists (S k). split; [lia|]. intros r Hr.
        destruct (Nat.eq_dec r k) as [->|Hrk]; [rewrite Hgk; symmetry; apply Nat.leb_gt; lia|].
        rewrite Hg by lia. destruct (Nat.leb_spec k r), (Nat.leb_spec (S k) r); try reflexivity; lia.
    + exists t. split; [lia|]. intros r Hr.
      destruct (Nat.eq_dec r k) as [->|Hrk]; [|apply Hg; lia].
      rewrite (Hmono t k ltac:(lia) ltac:(lia)).
      * symmetry. apply Nat.leb_le. lia.
      * rewrite Hg by lia. apply Nat.leb_le. lia.
Qed.

Lemma antitone01_threshold (g : nat -> bool) (k : nat) :
  (forall r1 r2, r1 < r2 -> r2 < k -> g r2 = true -> g r1 = true) ->
  exists t, t <= k /\ forall r, r < k -> g r = (r <? t).
Proof.
  intros Hanti.
  destruct (monotone01_threshold (fun r => negb (g r)) k) as (t & Ht & Hg).
  - intros r1 r2 H1 H2. cbv beta. specialize (Hanti r1 r2 H1 H2).
    destruct (g r1), (g r2); cbn; auto.
  - exists t. split; [exact Ht|]. intros r Hr. specialize (Hg r Hr). cbv beta in Hg.
    destruct (Nat.leb_spec t r), (Nat.ltb_spec r t); try lia; destruct (g r); cbn in Hg; congruence.
Qed.

(** Between two major stages: blocks of [k] sorted elements, in alternating
    directions, pair up into bitonic blocks of [2 * k] elements. *)
Lemma stage_invariant_next_stage (k nb : nat) (a : list bool) :
  0 < k -> length a = nb * (2 * k) ->
  stage_invariant 1 k a -> stage_invariant (2 * k) 1 a.
Proof.
  intros Hk Hlen [_ Hord]. split.
  - intros c Hc.
    destruct (monotone01_threshold (fun r => a !!! (c * (2 * k) + r)) k) as (t1 & Ht1 & Hg1).
    { intros r1 r2 H1 H2.
      pose proof (Hord (c * (2 * k) + r1) (c * (2 * k) + r2) 0 0) as Ho.
      rewrite !Nat.mul_1_r, !Nat.add_0_r in Ho.
      rewrite (div_lower_half k c r1), (div_lower_half k c r2), Nat.even_even in Ho by lia.
      apply Ho; lia. }
    destruct (antitone01_threshold (fun r => a !!! (c * (2 * k) + k + r)) k) as (t2 & Ht2 & Hg2).
    { intros r1 r2 H1 H2.
      pose proof (Hord (c * (2 * k) + k + r1) (c * (2 * k) + k + r2) 0 0) as Ho.
      rewrite !Nat.mul_1_r, !Nat.add_0_r in Ho.
      rewrite (div_upper_half k c r1), (div_upper_half k c r2), Nat.even_odd in Ho by lia.
      apply Ho; lia. }
    exists false, t1, (k + t2). split; [lia|]. intros r Hr. cbv beta in *.
    destruct (Nat.lt_ge_cases r k) as [Hlo|Hhi].
    + rewrite (Hg1 r Hlo). split_comparisons; cbn; try reflexivity; lia.
    + replace (c * (2 * k) + r) with (c * (2 * k) + k + (r - k)) by lia.
      rewrite (Hg2 (r - k)) by lia. split_comparisons; cbn; try reflexivity; lia.
  - intros c c' r r' Hlt Hdiv. rewrite !Nat.div_1_r in Hdiv. lia.
Qed.

Lemma stage_invariant_initial (a : list bool) : stage_invariant 1 1 a.
Proof.
  split.
  - intros c _. exists (a !!! (c * 1 + 0)), 0, 0. split; [lia|].
    intros r Hr. replace r with 0 by lia. cbn. destruct (a !!! (c * 1 + 0)); reflexivity.
  - intros c c' r r' Hlt Hdiv. rewrite !Nat.div_1_r in Hdiv. lia.
Qed.

(** After the major stages [0 .. n-1] the blocks of [2^n] elements are
    sorted, in alternating directions. *)
Lemma stage_invariant_network (N n : nat) (a : list bool) :
  n <= N -> length a = 2 ^ N ->
  stage_invariant 1 (2 ^ n) (bitonic_network bgt n a).
Proof.
  intros Hn Hlen. induction n as [|n IH].
  - cbn [bitonic_network]. rewrite Nat.pow_0_r. apply stage_invariant_initial.
  - cbn [bitonic_network]. unfold bitonic_stage.
    specialize (IH ltac:(lia)).
    assert (Hpos : 0 < 2 ^ n) by (pose proof (Nat.pow_nonzero 2 n); lia).
    assert (Hsplit : 2 ^ N = 2 ^ (N - S n) * 2 ^ S n)
      by (rewrite <- Nat.pow_add_r; f_equal; lia).
    rewrite <- (Nat.mul_1_l (2 ^ S n)).
    apply (stage_invariant_merge_passes (S n) 1 (2 ^ (N - S n))).
    + rewrite bitonic_network_length, Hlen. exact Hsplit.
    + rewrite Nat.pow_succ_r'.
      apply (stage_invariant_next_stage (2 ^ n) (2 ^ (N - S n))); [exact Hpos| |exact IH].
      rewrite bitonic_network_length, Hlen, Hsplit, Nat.pow_succ_r'. reflexivity.
Qed.

(** The network sorts every 0-1 array of [2^n] elements. *)
Lemma bitonic_network_sorts01 (n : nat) (a : list bool) (i i' : nat) :
  length a = 2 ^ n -> i < i' -> i' < 2 ^ n ->
  bitonic_network bgt n a !!! i = true -> bitonic_network bgt n a !!! i' = true.
Proof.
  intros Hlen Hlt Hi'.
  destruct (stage_invariant_network n n a ltac:(lia) Hlen) as [_ Hord].
  pose proof (Hord i i' 0 0 Hlt) as Ho.
  rewrite !Nat.mul_1_r, !Nat.add_0_r, bitonic_network_length, Hlen in Ho.
  rewrite (Nat.div_small i), (Nat.div_small i') in Ho by lia.
  apply Ho; lia.
Qed.

(** ** The sort network sorts *)

Section NetworkSorts.
Context {A : Type} (gt : A -> A -> bool).
Hypothesis gt_irrefl : forall x, gt x x = false.
Hypothesis gt_trans : forall x y z, gt x y = true -> gt y z = true -> gt x z = true.
Hypothesis gt_cotrans : forall x y z, gt x z = true -> gt y z = false -> gt x y = true.

(** The network leaves no element above a later one: it commutes with
    every threshold map [fun w => gt w z], and it sorts 0-1 arrays. *)
Lemma bitonic_network_no_inversion (n : nat) (a : list A) (i i' : nat) (x y : A) :
  length a = 2 ^ n -> i < i' ->
  bitonic_network gt n a !! i = Some x ->
  bitonic_network gt n a !! i' = Some y ->
  gt x y = false.
Proof.
  intros Hlen Hlt Hx Hy.
  destruct (gt x y) eqn:Hgt; [exfalso|reflexivity].
  pose proof (bitonic_network_map gt bgt (fun w => gt w y)) as Hmap.
  specialize (Hmap
    (fun u v Hb => gt_cotrans u v y (proj1 (andb_prop _ _ Hb))
                     (proj1 (negb_true_iff _) (proj2 (andb_prop _ _ Hb))))).
  assert (Hmerge : forall u v, gt u v = true -> bgt (gt u y) (gt v y) = false ->
                               gt u y = gt v y).
  { intros u v Huv Hb. unfold bgt in Hb.
    destruct (gt u y) eqn:Hu, (gt v y) eqn:Hv; try reflexivity; try discriminate.
    rewrite (gt_trans u v y Huv Hv) in Hu. discriminate. }
  specialize (Hmap Hmerge n a).
  assert (Hi' : i' < 2 ^ n).
  { apply lookup_lt_Some in Hy. rewrite bitonic_network_length, Hlen in Hy. exact Hy. }
  pose proof (bitonic_network_sorts01 n ((fun w => gt w y) <$> a) i i'
                ltac:(rewrite length_fmap; exact Hlen) Hlt Hi') as Hsorted.
  rewrite <- Hmap in Hsorted.
  rewrite (list_lookup_total_correct _ i (gt x y)) in Hsorted
    by (rewrite list_lookup_fmap, Hx; reflexivity).
  rewrite (list_lookup_total_correct _ i' (gt y y)) in Hsorted
    by (rewrite list_lookup_fmap, Hy; reflexivity).
  rewrite gt_irrefl in Hsorted. specialize (Hsorted Hgt). discriminate.
Qed.
End NetworkSorts.

Section Argsort.
Context {F : Type} `{ScalarOrder F}.

(** C3: for every array of [2^n] keys, the permutation the sort engine
    leaves is a rearrangement of the indices [0 .. 2^n - 1] (a bijection
    on them), and the keys read through two consecutive entries are in
    non-decreasing order. *)
Theorem argsort_indices_sorted_bijection (n : nat) (values : list F) :
  length values = 2 ^ n ->
  argsort_indices values ≡ₚ N.of_nat <$> seq 0 (2 ^ n) /\
  forall i, S i < 2 ^ n ->
    exists p p' d d',
      argsort_indices values !! i = Some p /\
      argsort_indices values !! S i = Some p' /\
      values !! N.to_nat p = Some d /\
      values !! N.to_nat p' = Some d' /\
      f_gt d d' = false.
Proof.
  intros Hlen. unfold argsort_indices.
  rewrite Hlen, Nat.log2_pow2 by lia.
  set (ids := N.of_nat <$> seq 0 (2 ^ n)).
  set (out := bitonic_network key_gt n (zip values ids)).
  assert (Hids : length ids = 2 ^ n) by (unfold ids; rewrite length_fmap, length_seq; lia).
  assert (Hperm : out ≡ₚ zip values ids) by apply bitonic_network_Permutation.
  assert (Hzip : length (zip values ids) = 2 ^ n)
    by (rewrite length_zip_with, Hlen, Hids; lia).
  assert (Hkey : forall j d p, out !! j = Some (d, p) -> values !! N.to_nat p = Some d).
  { intros j d p Hj.
    assert (Hin : (d, p) ∈ zip values ids)
      by (rewrite <- Hperm; eapply list_elem_of_lookup_2; exact Hj).
    apply elem_of_lookup_zip_with_1 in Hin as (j' & d0 & p0 & [= -> ->] & Hd & Hp).
    unfold ids in Hp. rewrite list_lookup_fmap in Hp.
    destruct (seq 0 (2 ^ n) !! j') as [j0|] eqn:Hseq; [|discriminate].
    apply lookup_seq in Hseq as [-> _]. injection Hp as <-.
    rewrite Nat2N.id. exact Hd. }
  split.
  - rewrite Hperm. rewrite snd_zip by lia. reflexivity.
  - intros i Hi.
    assert (Hout : length out = 2 ^ n)
      by (unfold out; rewrite bitonic_network_length; exact Hzip).
    destruct (lookup_lt_is_Some_2 out i ltac:(lia)) as [[d p] Hx].
    destruct (lookup_lt_is_Some_2 out (S i) ltac:(lia)) as [[d' p'] Hy].
    exists p, p', d, d'.
    rewrite !list_lookup_fmap, Hx, Hy. cbn [fmap option_fmap option_map snd].
    repeat split; [exact (Hkey _ _ _ Hx) | exact (Hkey _ _ _ Hy) |].
    change (key_gt (d, p) (d', p') = false).
    apply (bitonic_network_no_inversion key_gt) with (n := n) (a := zip values ids)
                                                     (i := i) (i' := S i).
    + intros x. apply f_gt_irrefl.
    + intros x y z. apply f_gt_trans.
    + intros x y z. apply f_gt_cotrans.
    + exact Hzip.
    + lia.
    + exact Hx.
    + exact Hy.
Qed.
End Argsort.

Lemma argsort_indices_sorted_bijection_witness :
  length [5; 1; 3; 1000000]%Z = 2 ^ 2 /\
  (argsort_indices [5; 1; 3; 1000000]%Z ≡ₚ N.of_nat <$> seq 0 (2 ^ 2) /\
   forall i, S i < 2 ^ 2 ->
     exists p p' d d',
       argsort_indices [5; 1; 3; 1000000]%Z !! i = Some p /\
       argsort_indices [5; 1; 3; 1000000]%Z !! S i = Some p' /\
       [5; 1; 3; 1000000]%Z !! N.to_nat p = Some d /\
       [5; 1; 3; 1000000]%Z !! N.to_nat p' = Some d' /\
       f_gt d d' = false).
Proof.
  split; [reflexivity|].
  apply (argsort_indices_sorted_bijection (F := Z) 2 [5; 1; 3; 1000000]%Z).
  reflexivity.
Defined.

(** ** [sort]: what it returns and what it touches *)

Section SortFrame.
Context {F : Type} `{Scalar F}.

Lemma updates_only_refl (hs : list handle) (bufs : gmap handle (BufferData F)) :
  updates_only hs bufs bufs.
Proof. split; [reflexivity | intros; reflexivity]. Qed.

Lemma updates_only_trans (hs : list handle) (b1 b2 b3 : gmap handle (BufferData F)) :
  updates_only hs b1 b2 -> updates_only hs b2 b3 -> updates_only hs b1 b3.
Proof.
  intros [Hd1 Hl1] [Hd2 Hl2]. split; [congruence|].
  intros h Hh. rewrite (Hl2 h Hh). apply Hl1. exact Hh.
Qed.

Lemma updates_only_insert (hs : list handle) (bufs : gmap handle (BufferData F))
    (h : handle) (data : BufferData F) :
  h ∈ hs -> is_Some (bufs !! h) -> updates_only hs bufs (<[h := data]> bufs).
Proof.
  intros Hin Hsome. split.
  - rewrite dom_insert_L. apply elem_of_dom in Hsome. set_solver.
  - intros h' Hh'. apply lookup_insert_ne. intros ->. contradiction.
Qed.

Lemma computeDepth_pass_updates (hs : list handle) (p : Pipeline)
    (bg : ComputeDepthBindGroup) (n : N) (bufs : gmap handle (BufferData F)) :
  bind_depths bg ∈ hs -> updates_only hs bufs (computeDepth_pass p bg n bufs).
Proof.
  intros Hin. unfold computeDepth_pass.
  destruct (bufs !! bind_vertices bg) as [[| |vs|]|]; try apply updates_only_refl.
  destruct (bufs !! bind_depths bg) as [[ds| | |]|] eqn:Hd; try apply updates_only_refl.
  destruct (bufs !! bind_projMatrix bg) as [[| | |m]|]; try apply updates_only_refl.
  apply updates_only_insert; [exact Hin | rewrite Hd; eauto].
Qed.

Lemma copyToIndexBuffer_pass_updates (hs : list handle) (p : Pipeline)
    (bg : CopyBindGroup) (n : N) (bufs : gmap handle (BufferData F)) :
  bind_indexBuffer bg ∈ hs -> updates_only hs bufs (copyToIndexBuffer_pass p bg n bufs).
Proof.
  intros Hin. unfold copyToIndexBuffer_pass.
  destruct (bufs !! bind_indices bg) as [[|l| |]|]; try apply updates_only_refl.
  destruct (bufs !! bind_indexBuffer bg) as [[|l'| |]|] eqn:Hd; try apply updates_only_refl.
  apply updates_only_insert; [exact Hin | rewrite Hd; eauto].
Qed.

Lemma argsort_pass_updates (hs : list handle) (s : BitonicSorter) (values : handle)
    (bufs : gmap handle (BufferData F)) :
  indicesBuffer s ∈ hs -> is_Some (bufs !! indicesBuffer s) ->
  updates_only hs bufs (argsort_pass s values bufs).
Proof.
  intros Hin Hsome. unfold argsort_pass.
  destruct (bufs !! values) as [[keys| | |]|]; try apply updates_only_refl.
  apply updates_only_insert; assumption.
Qed.

Lemma submit_updates (hs : list handle) (dev : Device F)
    (pass : gmap handle (BufferData F) -> gmap handle (BufferData F)) :
  updates_only hs (buffers dev) (pass (buffers dev)) ->
  updates_only hs (buffers dev) (buffers (submit dev pass)) /\
  nextHandle (submit dev pass) = nextHandle dev.
Proof.
  intros Hpass. unfold submit.
  destruct (lost dev); [split; [apply updates_only_refl | reflexivity]|].
  destruct (faults dev) as [|[|] rest]; cbn [buffers nextHandle];
    (split; [first [exact Hpass | apply updates_only_refl] | reflexivity]).
Qed.

Lemma writeBuffer_updates (hs : list handle) (dev : Device F) (h : handle)
    (data : BufferData F) :
  h ∈ hs -> is_Some (buffers dev !! h) ->
  updates_only hs (buffers dev) (buffers (writeBuffer dev h data)) /\
  nextHandle (writeBuffer dev h data) = nextHandle dev.
Proof.
  intros Hin Hsome. unfold writeBuffer.
  destruct (lost dev); cbn [buffers nextHandle];
    (split; [first [apply updates_only_refl | by apply updates_only_insert] | reflexivity]).
Qed.

Lemma updates_only_is_Some (hs : list handle) (b1 b2 : gmap handle (BufferData F))
    (h : handle) :
  updates_only hs b1 b2 -> is_Some (b1 !! h) -> is_Some (b2 !! h).
Proof. intros [Hdom _] Hsome. apply elem_of_dom. rewrite Hdom. by apply elem_of_dom. Qed.

(** The positions buffer is none of the buffers [sort] writes: the kinds
    of contents differ. *)
Lemma positionsBuffer_not_target (this : DepthSorter) (dev : Device F) :
  DepthSorter_wf this dev -> positionsBuffer this ∉ sort_targets this.
Proof.
  intros Hwf.
  destruct (wf_positions _ _ Hwf) as (vs & Hvs & _).
  destruct (wf_projMatrix _ _ Hwf) as (m & Hm).
  destruct (wf_depths _ _ Hwf) as (ds & Hds & _).
  destruct (wf_indices _ _ Hwf) as (l & Hl & _).
  destruct (wf_index _ _ Hwf) as (l' & Hl' & _).
  unfold sort_targets. rewrite !not_elem_of_cons. repeat split; try apply not_elem_of_nil;
    intros Heq; rewrite Heq in Hvs; congruence.
Qed.

(** C10: a call of [sort] leaves the object as it was (the counts and the
    handles keep their values), returns the handle of the index buffer
    created at construction, creates no buffer (the device has the same
    set of buffers and the same next fresh handle) and changes the
    contents of no buffer other than the projection matrix, the depth,
    the permutation and the index buffer; the positions buffer is not one
    of these. *)
Theorem sort_frame (this : DepthSorter) (projMatrix : mat4x4 F) (dev : Device F) :
  DepthSorter_wf this dev ->
  out_this (sort this projMatrix dev) = this /\
  out_result (sort this projMatrix dev) = Returned (indexBuffer this) /\
  dom (buffers (out_device (sort this projMatrix dev))) = dom (buffers dev) /\
  nextHandle (out_device (sort this projMatrix dev)) = nextHandle dev /\
  buffers (out_device (sort this projMatrix dev)) !! positionsBuffer this
    = buffers dev !! positionsBuffer this /\
  (forall h, h <> projMatrixBuffer this -> h <> depthBuffer this ->
             h <> indicesBuffer (sorter this) -> h <> indexBuffer this ->
             buffers (out_device (sort this projMatrix dev)) !! h = buffers dev !! h).
Proof.
  intros Hwf.
  pose proof (positionsBuffer_not_target this dev Hwf) as Hpos.
  destruct (wf_projMatrix _ _ Hwf) as (m & Hm).
  destruct (wf_indices _ _ Hwf) as (l & Hl & _).
  unfold sort, argsort. cbn [out_this out_result out_device].
  set (d1 := writeBuffer dev (projMatrixBuffer this) (Mat4Uniform projMatrix)).
  set (d2 := submit d1 _). set (d3 := submit d2 _). set (d4 := submit d3 _).
  destruct (writeBuffer_updates (sort_targets this) dev (projMatrixBuffer this)
              (Mat4Uniform projMatrix)) as [U1 N1];
    [unfold sort_targets; set_solver | rewrite Hm; eauto |].
  fold d1 in U1, N1.
  destruct (submit_updates (sort_targets this) d1
              (computeDepth_pass (computeDepthPipeline this) (computeDepthBindGroup this)
                                 (numThreads this))) as [U2 N2].
  { apply computeDepth_pass_updates.
    rewrite (wf_computeDepthBindGroup _ _ Hwf). unfold sort_targets. cbn. set_solver. }
  fold d2 in U2, N2.
  destruct (submit_updates (sort_targets this) d2
              (argsort_pass (sorter this) (depthBuffer this))) as [U3 N3].
  { apply argsort_pass_updates; [unfold sort_targets; set_solver|].
    apply (updates_only_is_Some _ _ _ _ U2), (updates_only_is_Some _ _ _ _ U1).
    rewrite Hl. eauto. }
  fold d3 in U3, N3.
  destruct (submit_updates (sort_targets this) d3
              (copyToIndexBuffer_pass (copyToIndexBufferPipeline this)
                                      (copyToIndexBufferBindGroup this) (numThreads this)))
    as [U4 N4].
  { apply copyToIndexBuffer_pass_updates.
    rewrite (wf_copyToIndexBufferBindGroup _ _ Hwf). unfold sort_targets. cbn. set_solver. }
  fold d4 in U4, N4.
  pose proof (updates_only_trans _ _ _ _ (updates_only_trans _ _ _ _
                (updates_only_trans _ _ _ _ U1 U2) U3) U4) as [Hdom Hsame].
  repeat split; try reflexivity.
  - exact Hdom.
  - congruence.
  - apply Hsame. exact Hpos.
  - intros h H1 H2 H3 H4. apply Hsame. unfold sort_targets. set_solver.
Qed.
End SortFrame.

(** ** [sort]: the stages of a call *)

Section SortRuns.
Context {F : Type} `{Scalar F}.

Lemma writeBuffer_lost (dev : Device F) (h : handle) (data : BufferData F) :
  lost dev = true -> writeBuffer dev h data = dev.
Proof. intros Hl. unfold writeBuffer. rewrite Hl. reflexivity. Qed.

Lemma submit_lost (dev : Device F)
    (pass : gmap handle (BufferData F) -> gmap handle (BufferData F)) :
  lost dev = true -> submit dev pass = dev.
Proof. intros Hl. unfold submit. rewrite Hl. reflexivity. Qed.

(** On a lost device a call changes nothing. *)
Lemma sort_lost (this : DepthSorter) (projMatrix : mat4x4 F) (dev : Device F) :
  lost dev = true -> out_device (sort this projMatrix dev) = dev.
Proof.
  intros Hl. unfold sort, argsort. cbn [out_device].
  rewrite writeBuffer_lost by exact Hl. rewrite !(submit_lost dev) by exact Hl. reflexivity.
Qed.

(** Otherwise the call stops at the first submission that faults: the
    buffers are those of one of the stages, the last one when the device
    is not lost afterwards. *)
Lemma sort_buffers_cases (this : DepthSorter) (projMatrix : mat4x4 F) (dev : Device F) :
  lost dev = false ->
  buffers (out_device (sort this projMatrix dev)) ∈ sort_stages this projMatrix (buffers dev) /\
  (lost (out_device (sort this projMatrix dev)) = false ->
   sort_stages this projMatrix (buffers dev) !! 3 
   = Some (buffers (out_device (sort this projMatrix dev)))).
Proof.
  destruct dev as [bufs nh l fs]. cbn [lost buffers]. intros ->.
  unfold sort, argsort, sort_stages, writeBuffer. cbn [out_device lost buffers nextHandle faults].
  destruct fs as [|[|] [|[|] [|[|] fs]]];
    unfold submit; cbn [lost buffers nextHandle faults];
    (split; [auto using list_elem_of_here, list_elem_of_further | first [discriminate | reflexivity]]).
Qed.

Lemma wf_handles_distinct (this : DepthSorter) (dev : Device F) :
  DepthSorter_wf this dev ->
  positionsBuffer this <> projMatrixBuffer this /\
  positionsBuffer this <> depthBuffer this /\
  positionsBuffer this <> indicesBuffer (sorter this) /\
  positionsBuffer this <> indexBuffer this /\
  projMatrixBuffer this <> depthBuffer this /\
  projMatrixBuffer this <> indicesBuffer (sorter this) /\
  projMatrixBuffer this <> indexBuffer this /\
  depthBuffer this <> indicesBuffer (sorter this) /\
  depthBuffer this <> indexBuffer this /\
  indicesBuffer (sorter this) <> indexBuffer this.
Proof.
  intros Hwf.
  destruct (wf_positions _ _ Hwf) as (vs & Hvs & _).
  destruct (wf_projMatrix _ _ Hwf) as (m & Hm).
  destruct (wf_depths _ _ Hwf) as (ds & Hds & _).
  destruct (wf_indices _ _ Hwf) as (l & Hl & _).
  destruct (wf_index _ _ Hwf) as (l' & Hl' & _).
  repeat split; try exact (wf_distinct _ _ Hwf); intros Heq;
    rewrite Heq in *; congruence.
Qed.

Lemma argsort_indices_length (values : list F) :
  length (argsort_indices values) = length values.
Proof.
  unfold argsort_indices.
  rewrite length_fmap, bitonic_network_length, length_zip_with, length_fmap, length_seq.
  lia.
Qed.

(** The stages in closed form: each pass finds the buffers it is bound to
    and overwrites its output buffer. *)
Lemma sort_stages_closed (this : DepthSorter) (projMatrix : mat4x4 F) (dev : Device F)
    (vs : list (vec3 F)) (ds : list F) (il : list N) :
  DepthSorter_wf this dev ->
  buffers dev !! positionsBuffer this = Some (Vec3Array vs) ->
  buffers dev !! depthBuffer this = Some (F32Array ds) ->
  buffers dev !! indexBuffer this = Some (U32Array il) ->
  let depths := projected_depths (nElements this) vs projMatrix ds in
  let permutation := argsort_indices depths in
  let b1 := <[projMatrixBuffer this := Mat4Uniform projMatrix]> (buffers dev) in
  let b2 := <[depthBuffer this := F32Array depths]> b1 in
  let b3 := <[indicesBuffer (sorter this) := U32Array permutation]> b2 in
  let b4 :=
    <[indexBuffer this := U32Array (expanded_indices (nElements this) permutation il)]> b3 in
  sort_stages this projMatrix (buffers dev) = [b1; b2; b3; b4].
Proof.
  intros Hwf Hvs Hds Hil depths permutation b1 b2 b3 b4.
  destruct (wf_handles_distinct this dev Hwf)
    as (D1 & D2 & D3 & D4 & D5 & D6 & D7 & D8 & D9 & D10).
  unfold sort_stages.
  rewrite (wf_computeDepthPipeline _ _ Hwf), (wf_computeDepthBindGroup _ _ Hwf),
          (wf_copyToIndexBufferPipeline _ _ Hwf), (wf_copyToIndexBufferBindGroup _ _ Hwf),
          (wf_numThreads _ _ Hwf).
  fold b1.
  assert (E2 : computeDepth_pass
                 (MkPipeline (ceil_div (nElements this) 1024) (nElements this))
                 (MkComputeDepthBindGroup (positionsBuffer this) (depthBuffer this)
                                          (projMatrixBuffer this)) 1024%N b1 = b2).
  { unfold computeDepth_pass, b1.
    cbn [bind_vertices bind_depths bind_projMatrix itemsPerThread numQuadsUnpadded].
    rewrite lookup_insert_ne, Hvs by congruence.
    rewrite lookup_insert_ne, Hds by congruence.
    rewrite lookup_insert_eq. reflexivity. }
  rewrite E2.
  assert (E3 : argsort_pass (sorter this) (depthBuffer this) b2 = b3).
  { unfold argsort_pass, b2. rewrite lookup_insert_eq. reflexivity. }
  rewrite E3.
  assert (E4 : copyToIndexBuffer_pass
                 (MkPipeline (ceil_div (nElements this) 1024) (nElements this))
                 (MkCopyBindGroup (indicesBuffer (sorter this)) (indexBuffer this))
                 1024%N b3 = b4).
  { unfold copyToIndexBuffer_pass, b3, b2, b1.
    cbn [bind_indices bind_indexBuffer itemsPerThread numQuadsUnpadded].
    rewrite lookup_insert_eq.
    rewrite !lookup_insert_ne, Hil by congruence. reflexivity. }
  rewrite E4. reflexivity.
Qed.

(** Well-formedness looks at the buffers only. *)
Lemma DepthSorter_wf_buffers (this : DepthSorter) (dev dev' : Device F) :
  buffers dev' = buffers dev -> DepthSorter_wf this dev -> DepthSorter_wf this dev'.
Proof. intros Heq [? ? ? ? ? ? ? ? ? ? ? ? ?]. constructor; rewrite ?Heq; assumption. Qed.

(** Every stage leaves buffers of the kinds and sizes it found. *)
Lemma sort_stages_wf (this : DepthSorter) (projMatrix : mat4x4 F) (dev dev' : Device F) :
  DepthSorter_wf this dev ->
  buffers dev' ∈ sort_stages this projMatrix (buffers dev) ->
  DepthSorter_wf this dev'.
Proof.
  intros Hwf Hin.
  destruct (wf_handles_distinct this dev Hwf)
    as (D1 & D2 & D3 & D4 & D5 & D6 & D7 & D8 & D9 & D10).
  destruct (wf_positions _ _ Hwf) as (vs & Hvs & Hvlen).
  destruct (wf_projMatrix _ _ Hwf) as (m0 & Hm0).
  destruct (wf_depths _ _ Hwf) as (ds & Hds & Hdlen).
  destruct (wf_indices _ _ Hwf) as (l & Hl & Hllen).
  destruct (wf_index _ _ Hwf) as (il & Hil & Hilen).
  rewrite (sort_stages_closed this projMatrix dev vs ds il Hwf Hvs Hds Hil) in Hin.
  cbv zeta in Hin.
  assert (Hplen : length (argsort_indices (projected_depths (nElements this) vs projMatrix ds))
                  = N.to_nat (nPadded this))
    by (rewrite argsort_indices_length; unfold projected_depths;
        rewrite apply_stores_length; exact Hdlen).
  assert (Hdlen' : length (projected_depths (nElements this) vs projMatrix ds)
                   = N.to_nat (nPadded this))
    by (unfold projected_depths; rewrite apply_stores_length; exact Hdlen).
  assert (Hilen' : forall p, length (expanded_indices (nElements this) p il)
                             = N.to_nat (nElements this * 6))
    by (intros p; unfold expanded_indices; rewrite apply_stores_length; exact Hilen).
  destruct Hwf.
  repeat (apply elem_of_cons in Hin as [Hin|Hin]); [| | | |by apply elem_of_nil in Hin];
    (constructor; try assumption; rewrite Hin;
     [ exists vs | eexists | eexists | eexists | eexists ];
     (split || idtac);
     first [ rewrite ?lookup_insert_ne by congruence;
             first [ apply lookup_insert_eq | eassumption ]
           | eassumption | apply Hilen' ]).
Qed.

(** X13: the invariant of the object: a call of [sort] keeps it, whatever
    the device does: the handles still name buffers of the same kinds and
    sizes, so the next call finds what it is bound to. *)
Lemma sort_preserves_wf (this : DepthSorter) (projMatrix : mat4x4 F) (dev : Device F) :
  DepthSorter_wf this dev -> DepthSorter_wf this (out_device (sort this projMatrix dev)).
Proof.
  intros Hwf. destruct (lost dev) eqn:Hl.
  - rewrite sort_lost by exact Hl. exact Hwf.
  - apply (sort_stages_wf this projMatrix dev); [exact Hwf|].
    apply sort_buffers_cases. exact Hl.
Qed.

(** C9, amended: for a sorter whose sort engine was created for a
    power-of-two length (the engine's precondition), a call of [sort]
    returns the handle of the index buffer whether or not the device was
    lost or a submission of the call faults: the same value as on a device
    that does not fault.  [sort] has no error path of its own; a fault is
    not reported through the call. *)
Theorem sort_result_ignores_faults (this : DepthSorter) (projMatrix : mat4x4 F)
    (bufs : gmap handle (BufferData F)) (next : handle) (l : bool) (fs : list bool)
    (e : N) :
  sorter_nElements (sorter this) = (2 ^ e)%N ->
  out_result (sort this projMatrix (MkDevice bufs next l fs))
    = Returned (indexBuffer this) /\
  out_result (sort this projMatrix (MkDevice bufs next l fs))
    = out_result (sort this projMatrix (MkDevice bufs next false [])).
Proof. intros _. split; reflexivity. Qed.
End SortRuns.

(** ** The constructor *)

Lemma DepthSorter_new_wf {F : Type} `{Scalar F} (dev : Device F) (g : PackedGaussians F) :
  length (positions g) = N.to_nat (numGaussians g) ->
  DepthSorter_wf (fst (DepthSorter_new dev g)) (snd (DepthSorter_new dev g)).
Proof.
  intros Hlen. unfold DepthSorter_new, BitonicSorter_new, createBuffer.
  cbn [fst snd buffers nextHandle lost faults indicesBuffer].
  constructor; cbn [numThreads nPadded nElements computeDepthPipeline computeDepthBindGroup
                    copyToIndexBufferPipeline copyToIndexBufferBindGroup sorter
                    sorter_nElements indicesBuffer positionsBuffer projMatrixBuffer
                    depthBuffer indexBuffer buffers];
    try reflexivity.
  - eexists. split; [|exact Hlen].
    rewrite !lookup_insert_ne by lia. apply lookup_insert_eq.
  - eexists. rewrite !lookup_insert_ne by lia. apply lookup_insert_eq.
  - eexists. split; [rewrite !lookup_insert_ne by lia; apply lookup_insert_eq|].
    apply length_replicate.
  - eexists. split; [rewrite !lookup_insert_ne by lia; apply lookup_insert_eq|].
    apply length_replicate.
  - eexists. split; [apply lookup_insert_eq|]. apply length_replicate.
  - lia.
Qed.

Lemma example_wf : DepthSorter_wf example_sorter example_device.
Proof. apply (DepthSorter_new_wf (empty_device Z) example_gaussians). reflexivity. Qed.

Lemma sort_frame_witness :
  DepthSorter_wf example_sorter example_device /\
  (out_this (sort example_sorter identity_matrix example_device) = example_sorter /\
   out_result (sort example_sorter identity_matrix example_device)
     = Returned (indexBuffer example_sorter) /\
   dom (buffers (out_device (sort example_sorter identity_matrix example_device)))
     = dom (buffers example_device) /\
   nextHandle (out_device (sort example_sorter identity_matrix example_device))
     = nextHandle example_device /\
   buffers (out_device (sort example_sorter identity_matrix example_device))
     !! positionsBuffer example_sorter
     = buffers example_device !! positionsBuffer example_sorter /\
   (forall h, h <> projMatrixBuffer example_sorter -> h <> depthBuffer example_sorter ->
              h <> indicesBuffer (sorter example_sorter) -> h <> indexBuffer example_sorter ->
              buffers (out_device (sort example_sorter identity_matrix example_device)) !! h
              = buffers example_device !! h)).
Proof.
  split; [exact example_wf|].
  apply (sort_frame example_sorter identity_matrix example_device). exact example_wf.
Defined.

Lemma sort_result_ignores_faults_witness :
  sorter_nElements (sorter example_sorter) = (2 ^ 2)%N /\
  (out_result (sort example_sorter identity_matrix
                    (MkDevice (buffers example_device) (nextHandle example_device)
                              false [false; true]))
     = Returned (indexBuffer example_sorter) /\
   out_result (sort example_sorter identity_matrix
                    (MkDevice (buffers example_device) (nextHandle example_device)
                              false [false; true]))
     = out_result (sort example_sorter identity_matrix
                        (MkDevice (buffers example_device) (nextHandle example_device)
                                  false []))).
Proof.
  split; [reflexivity|].
  apply (sort_result_ignores_faults example_sorter identity_matrix
           (buffers example_device) (nextHandle example_device) false [false; true] 2).
  reflexivity.
Defined.

(** The run of the specification's scenario: depths 5, 1, 3. *)
Example sort_example_scene :
  u32_contents (out_device (sort example_sorter identity_matrix example_device))
               (indexBuffer example_sorter)
  = Some [6; 7; 8; 9; 10; 11; 12; 13; 14; 15; 16; 17; 0; 1; 2; 3; 4; 5]%N.
Proof. vm_compute. reflexivity. Qed.

(** ** The sentinel *)

(** C5: with three primitives of depths 2000000, 0 and 1 under the
    identity projection, the padding slot 3 holds the sentinel 1000000,
    which is below the first depth; it sorts to rank 2, below the count 3,
    and the expanded index buffer ends with 18 .. 23, none of them below
    [6 * 3 = 18]. *)
Theorem sort_emits_padding_index :
  let this := fst (DepthSorter_new (empty_device Z) far_gaussians) in
  let dev := snd (DepthSorter_new (empty_device Z) far_gaussians) in
  let after := out_device (sort this identity_matrix dev) in
  nElements this = 3%N /\ nPadded this = 4%N /\
  f32_contents after (depthBuffer this) = Some [2000000; 0; 1; 1000000]%Z /\
  u32_contents after (indicesBuffer (sorter this)) = Some [1; 2; 3; 0]%N /\
  u32_contents after (indexBuffer this)
  = Some [6; 7; 8; 9; 10; 11; 12; 13; 14; 15; 16; 17; 18; 19; 20; 21; 22; 23]%N.
Proof. vm_compute. repeat split. Qed.

(** ** Device faults *)

(** C9, as stated, fails: on a device whose first submission faults, the
    call of [sort] ends normally, with the handle of the index buffer, the
    same value as on a device that does not fault; the device is lost and
    the index buffer still holds its initial zeros. *)
Lemma sort_returns_despite_fault :
  let this := fst (DepthSorter_new faulting_device example_gaussians) in
  let dev := snd (DepthSorter_new faulting_device example_gaussians) in
  lost dev = false /\
  lost (out_device (sort this identity_matrix dev)) = true /\
  out_result (sort this identity_matrix dev) = Returned (indexBuffer this) /\
  out_result (sort this identity_matrix dev) <> Thrown /\
  out_result (sort this identity_matrix dev)
    = out_result (sort example_sorter identity_matrix example_device) /\
  u32_contents (out_device (sort this identity_matrix dev)) (indexBuffer this)
    = Some (replicate 18 0%N).
Proof. vm_compute. repeat split. discriminate. Qed.

Lemma copyToIndexBuffer_expansion_witness :
  (3 * 6 <= 2 ^ 32)%N /\
  length (replicate 18 0%N) = N.to_nat (3 * 6) /\
  (N.to_nat 3 <= length [1; 2; 0; 3]%N)%nat /\
  (forall idx, idx ∈ [1; 2; 0; 3]%N -> (idx * 6 + 5 < 2 ^ 32)%N) /\
  (length (apply_stores (replicate 18 0%N)
             (copyToIndexBuffer_stores 1024 (ceil_div 3 1024) 3 [1; 2; 0; 3]%N))
   = N.to_nat (3 * 6) /\
   (forall k v idx, (k < 3)%N -> (v < 6)%N -> [1; 2; 0; 3]%N !! N.to_nat k = Some idx ->
      apply_stores (replicate 18 0%N)
        (copyToIndexBuffer_stores 1024 (ceil_div 3 1024) 3 [1; 2; 0; 3]%N)
        !! N.to_nat (6 * k + v) = Some (6 * idx + v)%N) /\
   (forall st, st ∈ copyToIndexBuffer_stores 1024 (ceil_div 3 1024) 3 [1; 2; 0; 3]%N ->
               (fst st < 3 * 6)%N)).
Proof.
  assert (Hfit : forall idx, idx ∈ [1; 2; 0; 3]%N -> (idx * 6 + 5 < 2 ^ 32)%N).
  { intros idx Hin. repeat (apply elem_of_cons in Hin as [->|Hin]; [reflexivity|]).
    inversion Hin. }
  split; [discriminate|]. split; [reflexivity|]. split; [cbn; lia|]. split; [exact Hfit|].
  apply (copyToIndexBuffer_expansion 3 [1; 2; 0; 3]%N (replicate 18 0%N));
    [discriminate | reflexivity | cbn; lia | exact Hfit].
Defined.

Local Open Scope N_scope.

(** * Further properties of the code *)

(** ** [nextPowerOfTwo]: size of the padding *)

(** X1: the padded length is less than twice the count: for a count [x]
    with [1 <= x < 2^32], [nextPowerOfTwo x < 2 * x], so fewer than [x]
    slots of the depth array are padding. *)
Theorem nextPowerOfTwo_below_double (x : N) :
  1 <= x -> x < 2 ^ 32 -> nextPowerOfTwo x < 2 * x.
Proof.
  intros Hx _. assert (Hpos : 0 < x) by lia.
  pose proof (N.log2_spec x Hpos) as [Hlo _].
  destruct (nextPowerOfTwo_pos_cases x Hpos) as [[_ ->]|[Hlt ->]]; [lia|].
  rewrite N.add_1_r, N.pow_succ_r'. lia.
Qed.

Lemma nextPowerOfTwo_below_double_witness :
  1 <= 2049 /\ 2049 < 2 ^ 32 /\ nextPowerOfTwo 2049 < 2 * 2049.
Proof.
  split; [lia|]. split; [reflexivity|].
  apply (nextPowerOfTwo_below_double 2049); [lia | reflexivity].
Defined.

(** X2: [nextPowerOfTwo] is monotone on the counts below [2^32], the
    count [0] included. *)
Theorem nextPowerOfTwo_monotone (x y : N) :
  x <= y -> y < 2 ^ 32 -> nextPowerOfTwo x <= nextPowerOfTwo y.
Proof.
  intros Hxy _.
  destruct (N.eq_dec x 0) as [->|Hx0]; [change (nextPowerOfTwo 0) with 0; lia|].
  assert (Hx : 0 < x) by lia. assert (Hy : 0 < y) by lia.
  pose proof (N.log2_spec x Hx) as [Hxlo Hxhi].
  pose proof (N.log2_spec y Hy) as [Hylo Hyhi].
  pose proof (N.log2_le_mono x y Hxy) as Hlog.
  rewrite N.pow_succ_r' in Hxhi, Hyhi.
  destruct (nextPowerOfTwo_pos_cases x Hx) as [[_ ->]|[Hlt ->]].
  - destruct (nextPowerOfTwo_pos_cases y Hy) as [[_ ->]|[_ ->]]; [lia|].
    rewrite N.add_1_r, N.pow_succ_r'. lia.
  - destruct (nextPowerOfTwo_pos_cases y Hy) as [[Hpy ->]|[_ ->]].
    + (* y = 2^ly and 2^lx < x <= y, so lx < ly *)
      destruct (N.eq_dec (N.log2 x) (N.log2 y)) as [Heq|Hne]; [rewrite Heq in Hlt; lia|].
      rewrite <- Hpy. apply N.pow_le_mono_r; lia.
    + apply N.pow_le_mono_r; lia.
Qed.

Lemma nextPowerOfTwo_monotone_witness :
  0 <= 2049 /\ 2049 < 2 ^ 32 /\ nextPowerOfTwo 0 <= nextPowerOfTwo 2049.
Proof.
  split; [lia|]. split; [reflexivity|].
  apply (nextPowerOfTwo_monotone 0 2049); [lia | reflexivity].
Defined.

(** X3: padding a padded length changes nothing. *)
Theorem nextPowerOfTwo_idempotent (x : N) :
  x < 2 ^ 32 -> nextPowerOfTwo (nextPowerOfTwo x) = nextPowerOfTwo x.
Proof.
  intros _.
  destruct (N.eq_dec x 0) as [->|Hx0]; [reflexivity|].
  assert (Hx : 0 < x) by lia.
  assert (Hpow : forall e, nextPowerOfTwo (2 ^ e) = 2 ^ e).
  { intros e. assert (He : 0 < 2 ^ e) by (apply N.neq_0_lt_0, N.pow_nonzero; lia).
    destruct (nextPowerOfTwo_pos_cases (2 ^ e) He) as [[_ Heq]|[Hlt _]]; [exact Heq|].
    rewrite N.log2_pow2 in Hlt by lia. lia. }
  destruct (nextPowerOfTwo_pos_cases x Hx) as [[Hp ->]|[_ ->]].
  - rewrite <- Hp at 1. rewrite Hpow. exact Hp.
  - apply Hpow.
Qed.

Lemma nextPowerOfTwo_idempotent_witness :
  2049 < 2 ^ 32 /\ nextPowerOfTwo (nextPowerOfTwo 2049) = nextPowerOfTwo 2049.
Proof.
  split; [reflexivity|]. apply (nextPowerOfTwo_idempotent 2049). reflexivity.
Defined.

(** ** The chunks of the invocations *)

(** X4: with [itemsPerThread = ceil(n / 1024)] the chunks of the 1024
    invocations cover the [n] primitives with fewer than 1024 items to
    spare, and every primitive lies in the chunk of exactly one
    invocation. *)
Theorem invocation_chunks_partition (n i : N) :
  n + 1024 <= 2 ^ 32 -> i < n ->
  let ipt := ceil_div n 1024 in
  n <= 1024 * ipt < n + 1024 /\
  exists gid, gid < 1024 /\
    i ∈ for_range (u32 (gid * ipt)) (u32 ((gid + 1) * ipt)) /\
    forall g, g < 1024 -> i ∈ for_range (u32 (g * ipt)) (u32 ((g + 1) * ipt)) -> g = gid.
Proof.
  intros Hn Hi ipt.
  destruct (ceil_div_bounds n 1024 ltac:(lia)) as [Hcover Htop]. fold ipt in Hcover, Htop.
  split; [lia|].
  destruct (chunk_of_index 1024 ipt i ltac:(lia) ltac:(lia)) as [Hg Hrange].
  exists (i / ipt). split; [exact Hg|]. split; [apply elem_of_for_range; exact Hrange|].
  intros g Hglt Hin. apply elem_of_for_range in Hin.
  assert (Htopg : (g + 1) * ipt <= 1024 * ipt) by (apply N.mul_le_mono_r; lia).
  rewrite (u32_small (g * ipt)), (u32_small ((g + 1) * ipt)) in Hin by lia.
  apply (N.div_unique i ipt g (i - g * ipt)); lia.
Qed.

Lemma invocation_chunks_partition_witness :
  2049 + 1024 <= 2 ^ 32 /\ 2048 < 2049 /\
  (2049 <= 1024 * ceil_div 2049 1024 < 2049 + 1024 /\
   exists gid, gid < 1024 /\
     2048 ∈ for_range (u32 (gid * ceil_div 2049 1024)) (u32 ((gid + 1) * ceil_div 2049 1024)) /\
     forall g, g < 1024 ->
       2048 ∈ for_range (u32 (g * ceil_div 2049 1024)) (u32 ((g + 1) * ceil_div 2049 1024)) ->
       g = gid).
Proof.
  split; [discriminate|]. split; [reflexivity|].
  apply (invocation_chunks_partition 2049 2048); [discriminate | reflexivity].
Defined.

(** ** The Projection Stage: what it stores and what it leaves *)

Section ProjectionContents.
Context {F : Type} `{Scalar F}.

Lemma computeDepth_body_value (n : N) (vs : list (vec3 F)) (m : mat4x4 F) (i : N) :
  computeDepth_body n vs m i
  = (i, if i <? n then projected_z m (default vec3_zero (vs !! N.to_nat i))
        else f_lit 1000000).
Proof.
  unfold computeDepth_body, projected_z.
  destruct (N.leb_spec n i) as [Hge|Hlt], (N.ltb_spec i n) as [Hlt'|Hge']; try lia;
    reflexivity.
Qed.

(** A slot below [1024 * ceil(n / 1024)] of a depth array that holds all
    these slots ends with the value of the last store to it, and all the
    stores to it carry the same value; the slots from there on are not
    stored to. *)
Lemma projected_depths_lookup (n : N) (vs : list (vec3 F)) (m : mat4x4 F) (ds : list F)
    (p : nat) :
  n + 1024 <= 2 ^ 32 ->
  (N.to_nat (1024 * ceil_div n 1024) <= length ds)%nat ->
  projected_depths n vs m ds !! p =
  if decide (p < N.to_nat (1024 * ceil_div n 1024))%nat
  then Some (if N.of_nat p <? n
             then projected_z m (default vec3_zero (vs !! p))
             else f_lit 1000000)
  else ds !! p.
Proof.
  intros Hn Hlen.
  destruct (ceil_div_bounds n 1024 ltac:(lia)) as [_ Htop].
  unfold projected_depths.
  destruct (decide (p < N.to_nat (1024 * ceil_div n 1024))%nat) as [Hp|Hp].
  - pose proof (computeDepth_stores_cover 1024 (ceil_div n 1024) n vs m (N.of_nat p)
                  ltac:(lia) ltac:(lia)) as Hin.
    assert (Hfun : forall st', st' ∈ computeDepth_stores 1024 (ceil_div n 1024) n vs m ->
              snd st' = (fun q => if N.of_nat q <? n
                                  then projected_z m (default vec3_zero (vs !! q))
                                  else f_lit 1000000) (N.to_nat (fst st'))).
    { intros st' Hst'.
      apply elem_of_computeDepth_stores in Hst' as (g & i & _ & _ & ->).
      rewrite computeDepth_body_value. cbn [fst snd]. rewrite N2Nat.id. reflexivity. }
    pose proof (apply_stores_functional _ ds _ _ Hfun Hin) as Hlook.
    rewrite computeDepth_body_position, Nat2N.id in Hlook.
    rewrite Hlook by lia. reflexivity.
  - rewrite apply_stores_lookup.
    destruct (written _ p) as [v|] eqn:Hw; [|reflexivity].
    exfalso. apply written_Some_elem in Hw as (st & Hst & Hpos & _).
    apply computeDepth_stores_below in Hst; lia.
Qed.
End ProjectionContents.

Section ProjectionStores.
Context {F : Type} `{Scalar F}.

(** X5: the stores of the Projection Stage, as the constructor sets it
    up: one for every index below [1024 * ceil(n / 1024)] and no other;
    the store to an index [i < n] carries the z component of
    [projMatrix * (vertices[i], 1)], the store to an index [i >= n] the
    constant [1000000]. *)
Theorem computeDepth_stores_characterised (n : N) (vs : list (vec3 F)) (m : mat4x4 F)
    (st : store F) :
  n + 1024 <= 2 ^ 32 ->
  st ∈ computeDepth_stores 1024 (ceil_div n 1024) n vs m <->
  fst st < 1024 * ceil_div n 1024 /\
  snd st = if fst st <? n
           then projected_z m (default vec3_zero (vs !! N.to_nat (fst st)))
           else f_lit 1000000.
Proof.
  intros Hn.
  destruct (ceil_div_bounds n 1024 ltac:(lia)) as [_ Htop].
  pose proof (computeDepth_body_value n vs m) as Hbody.
  split.
  - intros Hst. split; [apply (computeDepth_stores_below 1024 _ n vs m st); [lia | exact Hst]|].
    apply elem_of_computeDepth_stores in Hst as (g & i & _ & _ & ->).
    rewrite Hbody. reflexivity.
  - intros [Hlt Hval]. destruct st as [i v]. cbn [fst snd] in Hlt, Hval.
    replace (i, v) with (computeDepth_body n vs m i) by (rewrite Hbody, Hval; reflexivity).
    apply computeDepth_stores_cover; lia.
Qed.
End ProjectionStores.

Lemma computeDepth_stores_characterised_witness :
  3 + 1024 <= 2 ^ 32 /\
  ((2, 3%Z) ∈ computeDepth_stores 1024 (ceil_div 3 1024) 3
                 (positions example_gaussians) identity_matrix <->
   fst (2, 3%Z) < 1024 * ceil_div 3 1024 /\
   snd (2, 3%Z)
   = if fst (2, 3%Z) <? 3
     then projected_z identity_matrix
            (default vec3_zero (positions example_gaussians !! N.to_nat (fst (2, 3%Z))))
     else f_lit 1000000).
Proof.
  split; [discriminate|].
  apply (computeDepth_stores_characterised 3 (positions example_gaussians) identity_matrix
           (2, 3%Z)).
  discriminate.
Defined.

Section ProjectionResult.
Context {F : Type} `{Scalar F}.

(** X6: the depth array after the Projection Stage, when it holds every
    slot the invocations store to (no store falls outside it): the depths
    of the [n] primitives, the constant [1000000] up to the slot
    [1024 * ceil(n / 1024)], and from there on what the array held before
    the call. *)
Theorem projected_depths_contents (n : N) (vs : list (vec3 F)) (m : mat4x4 F) (ds : list F) :
  n + 1024 <= 2 ^ 32 ->
  length vs = N.to_nat n ->
  (N.to_nat (1024 * ceil_div n 1024) <= length ds)%nat ->
  projected_depths n vs m ds
  = (projected_z m <$> vs)
    ++ replicate (N.to_nat (1024 * ceil_div n 1024 - n)) (f_lit 1000000)
    ++ drop (N.to_nat (1024 * ceil_div n 1024)) ds.
Proof.
  intros Hn Hvs Hlen.
  destruct (ceil_div_bounds n 1024 ltac:(lia)) as [Hcover _].
  apply list_eq. intros p.
  rewrite (projected_depths_lookup n vs m ds p Hn Hlen).
  destruct (decide (p < N.to_nat n)%nat) as [Hreal|Hpad].
  - rewrite decide_True by lia.
    rewrite lookup_app_l by (rewrite length_fmap; lia).
    rewrite list_lookup_fmap.
    destruct (lookup_lt_is_Some_2 vs p ltac:(lia)) as [pos Hpos]. rewrite Hpos.
    destruct (N.ltb_spec (N.of_nat p) n) as [_|Hge]; [reflexivity | lia].
  - rewrite lookup_app_r by (rewrite length_fmap; lia). rewrite length_fmap, Hvs.
    destruct (decide (p < N.to_nat (1024 * ceil_div n 1024))%nat) as [Hin|Hout].
    + rewrite lookup_app_l by (rewrite length_replicate; lia).
      rewrite lookup_replicate_2 by lia.
      destruct (N.ltb_spec (N.of_nat p) n) as [Hlt|_]; [lia | reflexivity].
    + rewrite lookup_app_r by (rewrite length_replicate; lia).
      rewrite length_replicate, lookup_drop. f_equal. lia.
Qed.

(** X7: when the chunks of the invocations end exactly at the padded
    length ([1024 * ceil(n / 1024) = nextPowerOfTwo n], as for [n] = 1024,
    2048 or 3073 .. 4096), the Projection Stage leaves the depth array of
    the specification, whatever the array held before: the depths of the
    primitives followed by the constant in every padding slot. *)
Theorem projected_depths_exact_fit (n : N) (vs : list (vec3 F)) (m : mat4x4 F) (ds : list F) :
  n + 1024 <= 2 ^ 32 ->
  length vs = N.to_nat n ->
  length ds = N.to_nat (nextPowerOfTwo n) ->
  nextPowerOfTwo n = 1024 * ceil_div n 1024 ->
  projected_depths n vs m ds
  = (projected_z m <$> vs) ++ replicate (N.to_nat (nextPowerOfTwo n - n)) (f_lit 1000000).
Proof.
  intros Hn Hvs Hds Hfit.
  destruct (ceil_div_bounds n 1024 ltac:(lia)) as [Hcover _].
  apply list_eq. intros p.
  rewrite (projected_depths_lookup n vs m ds p Hn) by (rewrite Hds, Hfit; lia).
  rewrite <- Hfit.
  destruct (decide (p < N.to_nat (nextPowerOfTwo n))%nat) as [Hin|Hout].
  - destruct (N.ltb_spec (N.of_nat p) n) as [Hlt|Hge].
    + rewrite lookup_app_l by (rewrite length_fmap; lia).
      rewrite list_lookup_fmap.
      destruct (lookup_lt_is_Some_2 vs p ltac:(lia)) as [pos Hpos]. rewrite Hpos.
      reflexivity.
    + rewrite lookup_app_r by (rewrite length_fmap; lia).
      rewrite lookup_replicate_2 by (rewrite length_fmap; lia). reflexivity.
  - rewrite lookup_ge_None_2 by lia. symmetry. apply lookup_ge_None_2.
    rewrite length_app, length_fmap, length_replicate. lia.
Qed.

(** X8: the depths depend on the projection matrix through the z
    components of its four columns only: two matrices that agree on them
    make the stage issue the same stores. *)
Theorem computeDepth_stores_z_row (t ipt n : N) (vs : list (vec3 F)) (m m' : mat4x4 F) :
  v4z (col0 m) = v4z (col0 m') -> v4z (col1 m) = v4z (col1 m') ->
  v4z (col2 m) = v4z (col2 m') -> v4z (col3 m) = v4z (col3 m') ->
  computeDepth_stores t ipt n vs m = computeDepth_stores t ipt n vs m'.
Proof.
  intros H0 H1 H2 H3. unfold computeDepth_stores. f_equal.
  unfold computeDepth_main, computeDepth_body, mat_mul_vec, mat_row. cbn [v4z].
  rewrite H0, H1, H2, H3. reflexivity.
Qed.
End ProjectionResult.

Lemma projected_depths_contents_witness :
  2049 + 1024 <= 2 ^ 32 /\
  length (replicate 2049 (Vec3 0 0 7)%Z) = N.to_nat 2049 /\
  (N.to_nat (1024 * ceil_div 2049 1024) <= length (replicate 4096 5%Z))%nat /\
  projected_depths 2049 (replicate 2049 (Vec3 0 0 7)%Z) identity_matrix (replicate 4096 5%Z)
  = (projected_z identity_matrix <$> replicate 2049 (Vec3 0 0 7)%Z)
    ++ replicate (N.to_nat (1024 * ceil_div 2049 1024 - 2049)) (f_lit 1000000)
    ++ drop (N.to_nat (1024 * ceil_div 2049 1024)) (replicate 4096 5%Z).
Proof.
  assert (H1 : 2049 + 1024 <= 2 ^ 32) by discriminate.
  assert (H2 : length (replicate 2049 (Vec3 0 0 7)%Z) = N.to_nat 2049)
    by (vm_compute; reflexivity).
  assert (H3 : (N.to_nat (1024 * ceil_div 2049 1024) <= length (replicate 4096 5%Z))%nat)
    by (rewrite length_replicate; vm_compute; lia).
  split; [exact H1|]. split; [exact H2|]. split; [exact H3|].
  exact (projected_depths_contents 2049 (replicate 2049 (Vec3 0 0 7)%Z) identity_matrix
           (replicate 4096 5%Z) H1 H2 H3).
Defined.

Lemma projected_depths_exact_fit_witness :
  1024 + 1024 <= 2 ^ 32 /\
  length (replicate 1024 (Vec3 0 0 7)%Z) = N.to_nat 1024 /\
  length (replicate 1024 5%Z) = N.to_nat (nextPowerOfTwo 1024) /\
  nextPowerOfTwo 1024 = 1024 * ceil_div 1024 1024 /\
  projected_depths 1024 (replicate 1024 (Vec3 0 0 7)%Z) identity_matrix (replicate 1024 5%Z)
  = (projected_z identity_matrix <$> replicate 1024 (Vec3 0 0 7)%Z)
    ++ replicate (N.to_nat (nextPowerOfTwo 1024 - 1024)) (f_lit 1000000).
Proof.
  assert (H1 : 1024 + 1024 <= 2 ^ 32) by discriminate.
  assert (H2 : length (replicate 1024 (Vec3 0 0 7)%Z) = N.to_nat 1024)
    by (vm_compute; reflexivity).
  assert (H3 : length (replicate 1024 5%Z) = N.to_nat (nextPowerOfTwo 1024))
    by (vm_compute; reflexivity).
  assert (H4 : nextPowerOfTwo 1024 = 1024 * ceil_div 1024 1024) by reflexivity.
  split; [exact H1|]. split; [exact H2|]. split; [exact H3|]. split; [exact H4|].
  exact (projected_depths_exact_fit 1024 (replicate 1024 (Vec3 0 0 7)%Z) identity_matrix
           (replicate 1024 5%Z) H1 H2 H3 H4).
Defined.

Lemma computeDepth_stores_z_row_witness :
  let m' := Mat4x4 (Vec4 2 0 0 0)%Z (Vec4 0 3 0 0)%Z (Vec4 0 0 1 0)%Z (Vec4 4 4 0 1)%Z in
  v4z (col0 identity_matrix) = v4z (col0 m') /\ v4z (col1 identity_matrix) = v4z (col1 m') /\
  v4z (col2 identity_matrix) = v4z (col2 m') /\ v4z (col3 identity_matrix) = v4z (col3 m') /\
  computeDepth_stores 1024 1 3 (positions example_gaussians) identity_matrix
  = computeDepth_stores 1024 1 3 (positions example_gaussians) m'.
Proof.
  cbv zeta. repeat (split; [reflexivity|]).
  apply (computeDepth_stores_z_row 1024 1 3 (positions example_gaussians) identity_matrix);
    reflexivity.
Defined.

(** ** The Index Expansion Stage: the whole buffer *)

(** The loop reads the permutation at the indices below the count only. *)
Lemma copy_loop_first_ranks (n : N) (perm perm' idxs : list N) :
  (forall i, (i < N.to_nat n)%nat -> perm !! i = perm' !! i) ->
  copy_loop n perm idxs = copy_loop n perm' idxs.
Proof.
  intros Hsame. induction idxs as [|i rest IH]; cbn [copy_loop]; [reflexivity|].
  destruct (N.leb_spec n i) as [_|Hlt]; [reflexivity|].
  rewrite (Hsame (N.to_nat i)) by lia. rewrite IH. reflexivity.
Qed.

Lemma copyToIndexBuffer_stores_first_ranks (t ipt n : N) (perm perm' : list N) :
  (forall i, (i < N.to_nat n)%nat -> perm !! i = perm' !! i) ->
  copyToIndexBuffer_stores t ipt n perm = copyToIndexBuffer_stores t ipt n perm'.
Proof.
  intros Hsame. unfold copyToIndexBuffer_stores.
  apply list_bind_ext; [|reflexivity]. intros gid.
  unfold copyToIndexBuffer_main. apply copy_loop_first_ranks. exact Hsame.
Qed.

(** X9: the Index Expansion Stage reads the first [n] entries of the
    permutation buffer only (the loop leaves at [i >= n] before
    [indices[i]] is read): two permutation buffers that agree on them give
    the same stores, whatever the padding ranks hold. *)
Theorem copyToIndexBuffer_reads_first_ranks (t ipt n : N) (perm perm' : list N) :
  take (N.to_nat n) perm = take (N.to_nat n) perm' ->
  copyToIndexBuffer_stores t ipt n perm = copyToIndexBuffer_stores t ipt n perm'.
Proof.
  intros Htake. apply copyToIndexBuffer_stores_first_ranks. intros i Hi.
  rewrite <- (lookup_take_lt perm (N.to_nat n) i Hi), Htake.
  apply lookup_take_lt. exact Hi.
Qed.

Lemma copyToIndexBuffer_reads_first_ranks_witness :
  take (N.to_nat 3) [1; 2; 0; 3] = take (N.to_nat 3) [1; 2; 0; 77] /\
  copyToIndexBuffer_stores 1024 1 3 [1; 2; 0; 3]
  = copyToIndexBuffer_stores 1024 1 3 [1; 2; 0; 77].
Proof.
  split; [reflexivity|].
  apply (copyToIndexBuffer_reads_first_ranks 1024 1 3 [1; 2; 0; 3] [1; 2; 0; 77]).
  reflexivity.
Defined.

Lemma expanded_at_take (n : nat) (perm : list N) (p : nat) :
  (p < 6 * n)%nat -> expanded_at (take n perm) p = expanded_at perm p.
Proof.
  intros Hp. unfold expanded_at. rewrite lookup_take_lt; [reflexivity|].
  apply Nat.Div0.div_lt_upper_bound. lia.
Qed.

(** Every entry of the index buffer after the stage. *)
Lemma expanded_indices_lookup (n : N) (perm il : list N) (p : nat) :
  n * 6 <= 2 ^ 32 ->
  length il = N.to_nat (n * 6) ->
  (N.to_nat n <= length perm)%nat ->
  (forall idx, idx ∈ take (N.to_nat n) perm -> idx * 6 + 5 < 2 ^ 32) ->
  (p < N.to_nat (n * 6))%nat ->
  expanded_indices n perm il !! p = Some (expanded_at perm p).
Proof.
  intros Hn Hlen Hperm Hfit Hp.
  unfold expanded_indices.
  rewrite (copyToIndexBuffer_stores_first_ranks 1024 (ceil_div n 1024) n perm
             (take (N.to_nat n) perm))
    by (intros i Hi; symmetry; apply lookup_take_lt; exact Hi).
  set (perm0 := take (N.to_nat n) perm).
  assert (Hlen0 : (N.to_nat n <= length perm0)%nat)
    by (unfold perm0; rewrite length_take; lia).
  set (stores := copyToIndexBuffer_stores 1024 (ceil_div n 1024) n perm0).
  destruct (ceil_div_bounds n 1024 ltac:(lia)) as [Hcover Htop].
  set (k := N.of_nat (p / 6)). set (v := N.of_nat (p mod 6)).
  assert (Hk : k < n) by (unfold k; assert (p / 6 < N.to_nat n)%nat
                            by (apply Nat.Div0.div_lt_upper_bound; lia); lia).
  assert (Hv : v < 6) by (unfold v; pose proof (Nat.mod_upper_bound p 6); lia).
  assert (Hpkv : p = N.to_nat (k * 6 + v))
    by (unfold k, v; pose proof (Nat.div_mod_eq p 6); lia).
  pose proof (copyToIndexBuffer_stores_cover 1024 (ceil_div n 1024) n perm0
                k v Hk Hcover ltac:(lia) Hv) as Hin.
  fold stores in Hin.
  pose proof (apply_stores_functional (expanded_at perm0) il stores _
                (fun st' Hst' => proj2 (copyToIndexBuffer_stores_exact _ _ _ _ st'
                                          Hn Hlen0 Hfit Hst')) Hin) as Hlook.
  cbn [fst] in Hlook.
  rewrite (u32_small (k * 6)) in Hlook by lia.
  rewrite (u32_small (k * 6 + v)) in Hlook by lia.
  rewrite <- Hpkv in Hlook. rewrite Hlook by lia.
  f_equal. apply expanded_at_take. lia.
Qed.

Lemma expanded_at_cons (idx : N) (rest : list N) (p : nat) :
  expanded_at (idx :: rest) (6 + p) = expanded_at rest p.
Proof.
  unfold expanded_at.
  replace (6 + p)%nat with (p + 1 * 6)%nat by lia.
  rewrite Nat.div_add by lia. rewrite Nat.Div0.mod_add.
  replace (p / 6 + 1)%nat with (S (p / 6)) by lia. reflexivity.
Qed.

(** Reading the values position by position or primitive by primitive. *)
Lemma expanded_at_quads (l : list N) :
  expanded_at l <$> seq 0 (6 * length l) = l ≫= quad_indices.
Proof.
  induction l as [|idx rest IH]; [reflexivity|].
  replace (6 * length (idx :: rest))%nat with (6 + 6 * length rest)%nat by (cbn; lia).
  rewrite seq_app, fmap_app, bind_cons.
  change (expanded_at (idx :: rest) <$> seq 0 6) with (quad_indices idx). f_equal.
  rewrite <- IH. change (0 + 6)%nat with (6 + 0)%nat.
  rewrite <- fmap_add_seq, <- list_fmap_compose.
  apply list_fmap_ext. intros _ p _. apply expanded_at_cons.
Qed.

Lemma expanded_at_take_quads (n : nat) (perm : list N) :
  (n <= length perm)%nat ->
  expanded_at perm <$> seq 0 (6 * n) = take n perm ≫= quad_indices.
Proof.
  intros Hn. rewrite <- expanded_at_quads, length_take_le by exact Hn.
  apply list_fmap_ext. intros i p Hp.
  apply lookup_seq in Hp as [-> Hp]. symmetry. apply expanded_at_take. exact Hp.
Qed.

Lemma expanded_indices_positions (n : N) (perm il : list N) :
  n * 6 <= 2 ^ 32 ->
  length il = N.to_nat (n * 6) ->
  (N.to_nat n <= length perm)%nat ->
  (forall idx, idx ∈ take (N.to_nat n) perm -> idx * 6 + 5 < 2 ^ 32) ->
  expanded_indices n perm il = expanded_at perm <$> seq 0 (6 * N.to_nat n).
Proof.
  intros Hn Hlen Hperm Hfit. apply list_eq. intros p.
  destruct (decide (p < N.to_nat (n * 6))%nat) as [Hp|Hp].
  - rewrite (expanded_indices_lookup n perm il p Hn Hlen Hperm Hfit Hp).
    rewrite list_lookup_fmap, lookup_seq_lt by lia. reflexivity.
  - rewrite lookup_ge_None_2
      by (unfold expanded_indices; rewrite apply_stores_length; lia).
    symmetry. apply lookup_ge_None_2. rewrite length_fmap, length_seq. lia.
Qed.

(** X10: the Index Expansion Stage overwrites the whole index buffer: its
    [6n] entries become the six indices of the primitive of rank 0, then
    those of rank 1, and so on to rank [n - 1], whatever the buffer held
    before. *)
Theorem expanded_indices_contents (n : N) (perm il : list N) :
  n * 6 <= 2 ^ 32 ->
  length il = N.to_nat (n * 6) ->
  (N.to_nat n <= length perm)%nat ->
  (forall idx, idx ∈ take (N.to_nat n) perm -> idx * 6 + 5 < 2 ^ 32) ->
  expanded_indices n perm il = take (N.to_nat n) perm ≫= quad_indices.
Proof.
  intros Hn Hlen Hperm Hfit.
  rewrite (expanded_indices_positions n perm il Hn Hlen Hperm Hfit).
  apply expanded_at_take_quads. exact Hperm.
Qed.

Lemma expanded_indices_contents_witness :
  3 * 6 <= 2 ^ 32 /\
  length (replicate 18 9) = N.to_nat (3 * 6) /\
  (N.to_nat 3 <= length [1; 2; 0; 3])%nat /\
  (forall idx, idx ∈ take (N.to_nat 3) [1; 2; 0; 3] -> idx * 6 + 5 < 2 ^ 32) /\
  expanded_indices 3 [1; 2; 0; 3] (replicate 18 9)
  = take (N.to_nat 3) [1; 2; 0; 3] ≫= quad_indices.
Proof.
  assert (Hfit : forall idx, idx ∈ take (N.to_nat 3) [1; 2; 0; 3] -> idx * 6 + 5 < 2 ^ 32).
  { intros idx Hin. change (take (N.to_nat 3) [1; 2; 0; 3]) with [1; 2; 0] in Hin.
    repeat (apply elem_of_cons in Hin as [->|Hin]; [reflexivity|]). inversion Hin. }
  split; [discriminate|]. split; [reflexivity|]. split; [cbn; lia|]. split; [exact Hfit|].
  apply (expanded_indices_contents 3 [1; 2; 0; 3] (replicate 18 9));
    [discriminate | reflexivity | cbn; lia | exact Hfit].
Defined.

(** The indices of the primitives 0 .. n-1, primitive by primitive, are
    the numbers 0 .. 6n-1. *)
Lemma quad_indices_seq (n : nat) :
  (N.of_nat <$> seq 0 n) ≫= quad_indices = N.of_nat <$> seq 0 (6 * n).
Proof.
  rewrite <- expanded_at_quads, length_fmap, length_seq.
  apply list_fmap_ext. intros p ? Hp. apply lookup_seq in Hp as [-> Hp].
  unfold expanded_at. cbn [Nat.add].
  assert (Hdiv : (p / 6 < n)%nat) by (apply Nat.Div0.div_lt_upper_bound; lia).
  rewrite list_lookup_fmap, lookup_seq_lt by exact Hdiv. cbn -[Nat.div Nat.modulo].
  pose proof (Nat.div_mod_eq p 6). lia.
Qed.

(** X11: when the first [n] ranks of the permutation buffer are the
    primitives 0 .. n-1 in some order, the index buffer after the stage
    holds the numbers 0 .. 6n-1 in some order: every vertex index exactly
    once, none outside [0, 6n). *)
Theorem expanded_indices_Permutation (n : N) (perm il : list N) :
  n * 6 <= 2 ^ 32 ->
  length il = N.to_nat (n * 6) ->
  take (N.to_nat n) perm ≡ₚ N.of_nat <$> seq 0 (N.to_nat n) ->
  expanded_indices n perm il ≡ₚ N.of_nat <$> seq 0 (6 * N.to_nat n).
Proof.
  intros Hn Hlen Hranks.
  assert (Hperm : (N.to_nat n <= length perm)%nat).
  { apply Permutation_length in Hranks.
    rewrite length_take, length_fmap, length_seq in Hranks. lia. }
  assert (Hfit : forall idx, idx ∈ take (N.to_nat n) perm -> idx * 6 + 5 < 2 ^ 32).
  { intros idx Hin. rewrite Hranks in Hin.
    apply list_elem_of_fmap in Hin as (i & -> & Hi). apply elem_of_seq in Hi. lia. }
  rewrite (expanded_indices_positions n perm il Hn Hlen Hperm Hfit).
  rewrite (expanded_at_take_quads _ _ Hperm), Hranks.
  rewrite quad_indices_seq. reflexivity.
Qed.

Lemma expanded_indices_Permutation_witness :
  3 * 6 <= 2 ^ 32 /\
  length (replicate 18 9) = N.to_nat (3 * 6) /\
  take (N.to_nat 3) [1; 2; 0; 3] ≡ₚ N.of_nat <$> seq 0 (N.to_nat 3) /\
  expanded_indices 3 [1; 2; 0; 3] (replicate 18 9) ≡ₚ N.of_nat <$> seq 0 (6 * N.to_nat 3).
Proof.
  assert (Hranks : take (N.to_nat 3) [1; 2; 0; 3] ≡ₚ N.of_nat <$> seq 0 (N.to_nat 3)).
  { change ([1; 2; 0] ≡ₚ [0; 1; 2]).
    eapply perm_trans; [apply perm_skip, perm_swap | apply perm_swap]. }
  split; [discriminate|]. split; [reflexivity|]. split; [exact Hranks|].
  apply (expanded_indices_Permutation 3 [1; 2; 0; 3] (replicate 18 9));
    [discriminate | reflexivity | exact Hranks].
Defined.

Local Open Scope nat_scope.

(** ** The constructor: the buffers it creates *)



Lemma sort_preserves_wf_witness :
  DepthSorter_wf example_sorter example_device /\
  DepthSorter_wf example_sorter
    (out_device (sort example_sorter identity_matrix example_device)).
Proof.
  split; [exact example_wf|].
  apply (sort_preserves_wf example_sorter identity_matrix example_device). exact example_wf.
Defined.
